(** * A shallow embedding of the fx-processor batch renderer

    This development models the parts of the fx-processor repository that
    the equalizer transform and the batch rendering pipeline rely on:

    - [Equalizer] : the 40-band graphic equalizer of
      [socialfx/dsp_utils/original/equalizer.js] (constructor, the [curve]
      setter and the [range] setter);
    - [Derive] : the job derivation loops of the preparation scripts
      ([src/unnamed/part_000] for reverb, [src/unnamed/part_001] for EQ);
    - [Batch] : the browser-side [processBatch] loops of the EQ page
      ([src/unnamed/part_002]) and of the reverb page
      ([audealize_reverb/html_processor/process_audio.html]);
    - [Server] : the [/save] endpoint of
      [audealize_reverb/html_processor/server.js];
    - [Wav] : the [bufferToWave] encoder shared by both pages.

    JavaScript numbers are modelled with exact rationals [Q]; a number that
    JavaScript would compute as [NaN] (for instance [range * 5 * undefined])
    is the constructor [NaN] of [jsnum]. *)

From Stdlib Require Import QArith Qround Lqa String Ascii ZArith Lia Bool List.
Import ListNotations.

(** JavaScript numbers as the code manipulates them. *)
Inductive jsnum : Type :=
| Num (q : Q)
| NaN.

(** Numeric equality of two JavaScript numbers ([===] on numbers). *)
Definition jsnum_eqb (a b : jsnum) : bool :=
  match a, b with
  | Num x, Num y => Qeq_bool x y
  | _, _ => false
  end.

(** [x < y] on numbers. *)
Definition Qltb (x y : Q) : bool := negb (Qle_bool y x).

(** [xs[i] = v] for an array whose index [i] is known to exist; out of
    range the array is left alone. *)
Fixpoint upd {A} (xs : list A) (i : nat) (v : A) : list A :=
  match xs, i with
  | [], _ => []
  | _ :: r, O => v :: r
  | x :: r, S k => x :: upd r k v
  end.

Module Equalizer.

Open Scope Q_scope.

(** The observable state of an [Equalizer] object: [this.normalize],
    [this.param.curve], [this.param.range] and the [gain] of each of the 40
    [BiquadFilterNode]s in [this.filters]. *)
Record eq_state : Type := mk_eq {
  normalize : bool;
  param_curve : list Q;
  param_range : Q;
  gains : list jsnum
}.

(** [this.param.curve[i]] read as a number: [undefined] past the end. *)
Definition curve_at (curve : list Q) (i : nat) : jsnum :=
  match nth_error curve i with
  | Some c => Num c
  | None => NaN
  end.

(** [new Equalizer(context, opts)] with [opts.curve = curve] and
    [opts.range = range]: the range defaults to 1 and each filter gain is
    set to [this.param.curve[i]]. *)
Definition make_equalizer (curve : list Q) (range : option Q) : eq_state :=
  {| normalize := true;
     param_curve := curve;
     param_range := match range with Some r => r | None => 1 end;
     gains := map (curve_at curve) (seq 0 40) |}.

(** First loop of the [curve] setter: [max_el] and [min_el] both start at
    0 and are updated by [value[i] > max_el] and [value[i] < min_el]. *)
Fixpoint scan_extrema (max_el min_el : Q) (value : list Q) : Q * Q :=
  match value with
  | [] => (max_el, min_el)
  | v :: r =>
      let max_el' := if Qltb max_el v then v else max_el in
      let min_el' := if Qltb v min_el then v else min_el in
      scan_extrema max_el' min_el' r
  end.

(** Second loop of the [curve] setter, from index [i] on: push the
    (normalized) value onto [this.param.curve], then set the gain of
    filter [i] to [this.param.range * 5 * this.param.curve[i]]. *)
Fixpoint apply_curve (norm : bool) (range max_el min_el : Q) (i : nat)
    (value : list Q) (curve : list Q) (gs : list jsnum) : list Q * list jsnum :=
  match value with
  | [] => (curve, gs)
  | v :: r =>
      let curve' :=
        if norm then
          let dat := v - min_el in
          if negb (Qeq_bool max_el min_el)
          then curve ++ [dat / (max_el - min_el) * 2 - 1]
          else curve
        else curve ++ [v] in
      let g := match curve_at curve' i with
               | Num c => Num (range * 5 * c)
               | NaN => NaN
               end in
      apply_curve norm range max_el min_el (S i) r curve' (upd gs i g)
  end.

(** The [curve] setter.  It returns [-1] (which the assignment discards)
    when the length is not 40, and [undefined] otherwise. *)
Definition curve_setter (s : eq_state) (value : list Q) : option Z * eq_state :=
  if negb (Nat.eqb (List.length value) 40) then (Some (-1)%Z, s)
  else
    let '(max_el, min_el) := scan_extrema 0 0 value in
    let '(curve, gs) :=
      apply_curve (normalize s) (param_range s) max_el min_el 0 value [] (gains s) in
    (None, {| normalize := normalize s; param_curve := curve;
              param_range := param_range s; gains := gs |}).

(** [eq.curve = value]: the new state. *)
Definition set_curve (s : eq_state) (value : list Q) : eq_state :=
  snd (curve_setter s value).

(** The [range] setter: store the range, then [this.curve = this.param.curve]. *)
Definition set_range (s : eq_state) (value : Q) : eq_state :=
  set_curve {| normalize := normalize s; param_curve := param_curve s;
               param_range := value; gains := gains s |} (param_curve s).

(** Gain of filter [i]. *)
Definition gain_at (s : eq_state) (i : nat) : jsnum := nth i (gains s) NaN.

(** The assignment [eq.curve = value] as a JavaScript statement: it either
    completes normally with a new state or throws.  The setter has no
    [throw], so it always completes normally; its return value is
    discarded. *)
Inductive completion : Type :=
| Normal (s : eq_state)
| Throw (err : string).

Definition assign_curve (s : eq_state) (value : list Q) : completion :=
  Normal (set_curve s value).

Definition max_el_of (value : list Q) : Q := fst (scan_extrema 0 0 value).
Definition min_el_of (value : list Q) : Q := snd (scan_extrema 0 0 value).

End Equalizer.

(** ** Strings as the preparation scripts use them *)

Module JsString.
Open Scope string_scope.

(** [s.endsWith(suffix)]. *)
Definition ends_with (suffix s : string) : bool :=
  let n := String.length s in
  let k := String.length suffix in
  Nat.leb k n && String.eqb (substring (n - k) k s) suffix.

(** [path.basename(file, ext)] for a directory entry [file] (no ['/']):
    the extension is removed when the name ends with it. *)
Definition basename (file ext : string) : string :=
  if ends_with ext file
  then substring 0 (String.length file - String.length ext) file
  else file.

(** [s.split(c)] for a one-character separator. *)
Fixpoint split (c : ascii) (s : string) : list string :=
  match s with
  | EmptyString => [EmptyString]
  | String a r =>
      let parts := split c r in
      if Ascii.eqb a c then EmptyString :: parts
      else match parts with
           | p :: ps => String a p :: ps
           | [] => [String a EmptyString]
           end
  end.

(** [`${xs[i]}`]: an element of an array in a template literal, where a
    missing element prints as ["undefined"]. *)
Definition show_at (xs : list string) (i : nat) : string :=
  match nth_error xs i with
  | Some x => x
  | None => "undefined"
  end.

(** [arr.pop()] read for its value: the last element. *)
Definition pop_value (xs : list string) : string :=
  match rev xs with
  | x :: _ => x
  | [] => "undefined"
  end.

Definition underscore : ascii := "_"%char.
Definition slash : ascii := "/"%char.

End JsString.

(** ** Job derivation ([src/unnamed/part_000], [src/unnamed/part_001]) *)

Module Derive.
Import JsString.
Open Scope string_scope.

(** A processing job as pushed onto [processingData]. *)
Record job : Type := mk_job {
  audioFile : string;
  presetId : string;
  params : list Q;
  outputId : string
}.

(** [path.basename(presetFile, '.json').split('_')[1]]. *)
Definition preset_id (presetFile : string) : string :=
  show_at (split underscore (basename presetFile ".json")) 1.

(** The EQ job of [part_001] for audio file [audio] (a [.wav] entry of the
    audio directory) and preset file [eqFile]. *)
Definition eq_job (audio eqFile : string) (eqParams : list Q) : job :=
  {| audioFile := "/audio/" ++ audio;
     presetId := preset_id eqFile;
     params := eqParams;
     outputId := "eq_" ++ preset_id eqFile ++ "/" ++ basename audio ".wav" |}.

(** [path.join(outputDir, `eq_${eqId}/${audioName}.wav`)], relative to
    [outputDir]. *)
Definition eq_output_path (audio eqFile : string) : string :=
  "eq_" ++ preset_id eqFile ++ "/" ++ basename audio ".wav" ++ ".wav".

(** The inner loop of [part_001] over the preset files for one audio file:
    an existing output is pushed onto [skippedFiles], any other pair onto
    [processingData].  [param_values] stands for
    [JSON.parse(fs.readFileSync(eqPath)).param_values] and [existsSync] for
    [fs.existsSync] under [outputDir]. *)
Fixpoint derive_eq_presets (param_values : string -> list Q) (existsSync : string -> bool)
    (audio : string) (eqFiles : list string) : list job * list string :=
  match eqFiles with
  | [] => ([], [])
  | e :: r =>
      let '(jobs, skipped) := derive_eq_presets param_values existsSync audio r in
      if existsSync (eq_output_path audio e)
      then (jobs, eq_output_path audio e :: skipped)
      else (eq_job audio e (param_values e) :: jobs, skipped)
  end.

(** [part_001]: the directory listings are filtered on [.wav] and [.json];
    audio files form the outer loop, preset files the inner one.  Returns
    [processingData] and [skippedFiles]. *)
Fixpoint derive_eq_loop (param_values : string -> list Q) (existsSync : string -> bool)
    (audioFiles eqFiles : list string) : list job * list string :=
  match audioFiles with
  | [] => ([], [])
  | a :: r =>
      let '(j1, s1) := derive_eq_presets param_values existsSync a eqFiles in
      let '(j2, s2) := derive_eq_loop param_values existsSync r eqFiles in
      ((j1 ++ j2)%list, (s1 ++ s2)%list)
  end.

Definition derive_eq (param_values : string -> list Q) (existsSync : string -> bool)
    (audioDir eqDir : list string) : list job * list string :=
  derive_eq_loop param_values existsSync
    (filter (ends_with ".wav") audioDir) (filter (ends_with ".json") eqDir).

(** [part_000]: one audio file, every [.json] reverb preset, no existence
    check. *)
Definition reverb_job (audio reverbFile : string) (reverbParams : list Q) : job :=
  {| audioFile := "/audio/" ++ audio;
     presetId := preset_id reverbFile;
     params := reverbParams;
     outputId := "reverb_" ++ preset_id reverbFile ++ "/" ++ basename audio ".wav" |}.

Definition derive_reverb (param_values : string -> list Q) (audio : string)
    (reverbDir : list string) : list job :=
  map (fun f => reverb_job audio f (param_values f)) (filter (ends_with ".json") reverbDir).

End Derive.

(** ** The browser-side batch loops ([processBatch])

    A job is represented by its [outputId]: the counters, the skip decision
    and the requests sent to the server depend on nothing else.  The
    asynchronous steps are run in one admissible order: the jobs of a wave
    start in order, and each job's render finishes and its [/save]
    callback runs before the next job's render finishes. *)

Module Batch.

Record run_state : Type := mk_run {
  totalJobs : nat;
  completedJobs : nat;
  skippedJobs : nat;
  skippedFiles : list string;
  invoked : list string;        (** [processAudio] calls, i.e. renders started *)
  saved : list string;          (** [POST /save] requests, by [outputId] *)
  completeSignals : nat;        (** [POST /complete] requests *)
  consoleErrors : list string   (** [console.error] lines, by job *)
}.

Definition init_run (total : nat) : run_state :=
  mk_run total 0 0 [] [] [] 0 [].

Definition invoke (st : run_state) (id : string) : run_state :=
  mk_run (totalJobs st) (completedJobs st) (skippedJobs st) (skippedFiles st)
    (invoked st ++ [id]) (saved st) (completeSignals st) (consoleErrors st).

Definition complete_job (st : run_state) : run_state :=
  mk_run (totalJobs st) (S (completedJobs st)) (skippedJobs st) (skippedFiles st)
    (invoked st) (saved st) (completeSignals st) (consoleErrors st).

Definition skip_job (st : run_state) (id : string) : run_state :=
  mk_run (totalJobs st) (completedJobs st) (S (skippedJobs st))
    (skippedFiles st ++ [id]) (invoked st) (saved st) (completeSignals st)
    (consoleErrors st).

Definition post_save (st : run_state) (id : string) : run_state :=
  mk_run (totalJobs st) (completedJobs st) (skippedJobs st) (skippedFiles st)
    (invoked st) (saved st ++ [id]) (completeSignals st) (consoleErrors st).

Definition post_complete (st : run_state) : run_state :=
  mk_run (totalJobs st) (completedJobs st) (skippedJobs st) (skippedFiles st)
    (invoked st) (saved st) (S (completeSignals st)) (consoleErrors st).

Definition log_error (st : run_state) (id : string) : run_state :=
  mk_run (totalJobs st) (completedJobs st) (skippedJobs st) (skippedFiles st)
    (invoked st) (saved st) (completeSignals st) (consoleErrors st ++ [id]).

(** [batchData.slice(i, i + batchSize)] for [i = 0, batchSize, ...]. *)
Fixpoint slices {A} (fuel size : nat) (xs : list A) : list (list A) :=
  match fuel with
  | O => []
  | S f =>
      match xs with
      | [] => []
      | _ => firstn size xs :: slices f size (skipn size xs)
      end
  end.

Definition waves {A} (size : nat) (xs : list A) : list (list A) :=
  slices (length xs) size xs.

(** [processAudio] of the EQ page ([part_002]): on a successful render,
    [saveToServer] then [completedJobs++]; the save callback posts
    [/complete] when [completedJobs >= totalJobs].  A failed decode or
    render is logged and rejects the promise. *)
Definition eq_process_audio (render_ok : string -> bool) (st : run_state) (id : string)
    : run_state * bool :=
  let st := invoke st id in
  if render_ok id then
    let st := post_save (complete_job st) id in
    let st := if Nat.leb (totalJobs st) (completedJobs st) then post_complete st else st in
    (st, true)
  else (log_error st id, false).

(** [processAudio] of the reverb page: the same, but the save callback
    compares [completedJobs + skippedJobs] with [totalJobs]. *)
Definition reverb_process_audio (render_ok : string -> bool) (st : run_state) (id : string)
    : run_state * bool :=
  let st := invoke st id in
  if render_ok id then
    let st := post_save (complete_job st) id in
    let st := if Nat.leb (totalJobs st) (completedJobs st + skippedJobs st)
              then post_complete st else st in
    (st, true)
  else (log_error st id, false).

(** [await Promise.all(wave.map(processAudio))]: every job of the wave is
    started; the promise fulfils when all of them succeed. *)
Fixpoint run_wave (pa : run_state -> string -> run_state * bool) (st : run_state)
    (wave : list string) : run_state * bool :=
  match wave with
  | [] => (st, true)
  | id :: r =>
      let '(st1, ok1) := pa st id in
      let '(st2, ok2) := run_wave pa st1 r in
      (st2, ok1 && ok2)
  end.

(** The EQ page's wave loop: a rejected wave throws out of [processBatch]. *)
Fixpoint eq_waves (render_ok : string -> bool) (st : run_state) (ws : list (list string))
    : run_state :=
  match ws with
  | [] => st
  | w :: r =>
      let '(st', ok) := run_wave (eq_process_audio render_ok) st w in
      if ok then eq_waves render_ok st' r else st'
  end.

(** [processBatch] of the EQ page, with [batchSize = 8]. *)
Definition eq_process_batch (render_ok : string -> bool) (batchData : list string)
    : run_state :=
  eq_waves render_ok (init_run (length batchData)) (waves 8 batchData).

(** Answer of [GET /check-file?id=...]: a JSON body, or a failed request. *)
Inductive probe_result : Type :=
| Responded (exists_flag : bool)
| ProbeFailed.

(** [checkFileExists]: a failed request is logged and answered [false]. *)
Definition check_file_exists (probe : string -> probe_result) (st : run_state) (id : string)
    : run_state * bool :=
  match probe id with
  | Responded b => (st, b)
  | ProbeFailed => (log_error st id, false)
  end.

(** The sequential existence checks of one reverb wave: returns the
    [jobsToProcess]. *)
Fixpoint check_wave (probe : string -> probe_result) (st : run_state) (wave : list string)
    : run_state * list string :=
  match wave with
  | [] => (st, [])
  | id :: r =>
      let '(st1, ex) := check_file_exists probe st id in
      let st1 := if ex then skip_job st1 id else st1 in
      let '(st2, todo) := check_wave probe st1 r in
      (st2, if ex then todo else id :: todo)
  end.

(** The reverb page's wave loop; the flag is [false] when a wave rejects
    (and [processBatch] throws), with the state reached. *)
Fixpoint reverb_waves (probe : string -> probe_result) (render_ok : string -> bool)
    (st : run_state) (ws : list (list string)) : run_state * bool :=
  match ws with
  | [] => (st, true)
  | w :: r =>
      let '(st1, todo) := check_wave probe st w in
      let '(st2, ok) := run_wave (reverb_process_audio render_ok) st1 todo in
      if ok then reverb_waves probe render_ok st2 r else (st2, false)
  end.

(** [processBatch] of the reverb page, with [batchSize = 5]: after the last
    wave, completion is signalled when [completedJobs + skippedJobs >=
    totalJobs]. *)
Definition reverb_process_batch (probe : string -> probe_result)
    (render_ok : string -> bool) (batchData : list string) : run_state :=
  let '(st, ok) := reverb_waves probe render_ok (init_run (length batchData))
                     (waves 5 batchData) in
  if ok && Nat.leb (totalJobs st) (completedJobs st + skippedJobs st)
  then post_complete st else st.

End Batch.

(** ** The [/save] endpoint of the servers *)

Module Server.
Import JsString.
Open Scope string_scope.

(** The file system (preset directory and output directory) as
    (path, contents) pairs, newest first. *)
Definition fsys := list (string * string).

Fixpoint lookup (fs : fsys) (p : string) : option string :=
  match fs with
  | [] => None
  | (q, c) :: r => if String.eqb p q then Some c else lookup r p
  end.

Definition file_exists (fs : fsys) (p : string) : bool :=
  match lookup fs p with Some _ => true | None => false end.

Definition write_file (fs : fsys) (p data : string) : fsys := (p, data) :: fs.

(** [path.join(dir, file)] for paths that need no normalization. *)
Definition join (dir file : string) : string := dir ++ "/" ++ file.

(** [POST /save] of [audealize_reverb/html_processor/server.js] with body
    [{ id, data }]: the decoded audio is written to [outputDir/id.wav]
    (its contents are kept as the request's [data]), then the preset
    [reverbDir/reverb_<id.split('_').pop()>.json] is copied to
    [outputDir/id_reverb_info.json] when that preset file exists.  The
    boolean is [success] ([false] for the 400 answer). *)
Definition save_reverb (outputDir reverbDir : string) (fs : fsys) (id data : string)
    : fsys * bool :=
  if String.eqb id "" || String.eqb data "" then (fs, false)
  else
    let filePath := join outputDir (id ++ ".wav") in
    let fs1 := write_file fs filePath data in
    let reverbId := pop_value (split underscore id) in
    let reverbInfoPath := join outputDir (id ++ "_reverb_info.json") in
    let reverbSourcePath := join reverbDir ("reverb_" ++ reverbId ++ ".json") in
    match lookup fs1 reverbSourcePath with
    | Some preset => (write_file fs1 reverbInfoPath preset, true)
    | None => (fs1, true)
    end.

(** [POST /save] of the EQ server (written by the EQ launcher script). *)
Definition save_eq (outputDir eqDir : string) (fs : fsys) (id data : string)
    : fsys * bool :=
  if String.eqb id "" || String.eqb data "" then (fs, false)
  else
    let filePath := join outputDir (id ++ ".wav") in
    let fs1 := write_file fs filePath data in
    let eqId := pop_value (split underscore id) in
    let eqInfoPath := join outputDir (id ++ "_eq_info.json") in
    let eqSourcePath := join eqDir ("eq_" ++ eqId ++ ".json") in
    match lookup fs1 eqSourcePath with
    | Some preset => (write_file fs1 eqInfoPath preset, true)
    | None => (fs1, true)
    end.

(** The server handling the [/save] requests of a run, in order. *)
Definition persist_eq (outputDir eqDir data : string) (fs : fsys) (ids : list string)
    : fsys :=
  fold_left (fun fs id => fst (save_eq outputDir eqDir fs id data)) ids fs.








End Server.

(** ** One run of the EQ pipeline

    [part_001] derives the jobs against the output directory, then the EQ
    page renders them; the server persists every [/save]. *)

Module Pipeline.
Import Derive Batch Server.
Open Scope string_scope.

Record eq_run : Type := mk_eq_run {
  jobs : list Derive.job;
  skipped_at_derive : list string;
  page : run_state;
  files_after : fsys
}.

Definition run_eq (outputDir eqDir : string)
    (param_values : string -> list Q) (render_ok : string -> bool)
    (audioDir eqDirListing : list string) (fs : fsys) : eq_run :=
  let '(js, skipped) :=
    derive_eq param_values (fun p => file_exists fs (join outputDir p))
      audioDir eqDirListing in
  let st := eq_process_batch render_ok (map outputId js) in
  mk_eq_run js skipped st (persist_eq outputDir eqDir "UklGRg==" fs (saved st)).

End Pipeline.

(** ** The WAV encoder ([bufferToWave])

    An [ArrayBuffer] is a list of bytes (as [Z]); a [DataView] write is a
    list of (index, byte) writes, applied in program order, each one a
    [RangeError] ([None]) when its index is past the end. *)

Module Wav.
Open Scope Z_scope.

(** The [AudioBuffer] handed to [bufferToWave]: [getChannelData(i)] is the
    [i]-th list of [channelData]. *)
Record audio_buffer : Type := mk_buffer {
  numberOfChannels : nat;
  frames : nat;                  (** [abuffer.length] *)
  sampleRate : Z;
  channelData : list (list jsnum)
}.

(** [abuffer.getChannelData(i)[j]]; [undefined] (a [NaN] for [Math.min])
    past the end. *)
Definition sample_at (ab : audio_buffer) (i j : nat) : jsnum :=
  match nth_error (nth i (channelData ab) []) j with
  | Some x => x
  | None => NaN
  end.

(** [Math.max(-1, Math.min(1, x))]. *)
Definition clamp (x : jsnum) : jsnum :=
  match x with
  | NaN => NaN
  | Num q =>
      let m := if Qltb q 1 then q else 1%Q in
      Num (if Qltb (-1)%Q m then m else (-1)%Q)
  end.

(** [sample < 0 ? sample * 0x8000 : sample * 0x7FFF]. *)
Definition sample_to_pcm (sample : jsnum) : jsnum :=
  match sample with
  | Num q => if Qltb q 0 then Num (q * 32768) else Num (q * 32767)
  | NaN => NaN
  end.

(** ECMAScript's truncation of a number towards zero. *)
Definition trunc (q : Q) : Z := Z.quot (Qnum q) (Zpos (Qden q)).

(** ECMAScript's [ToInt16], which [setInt16] applies to its argument. *)
Definition to_int16 (x : jsnum) : Z :=
  match x with
  | NaN => 0
  | Num q =>
      let b := Z.modulo (trunc q) 65536 in
      if b >=? 32768 then b - 65536 else b
  end.

(** Little-endian bytes of an integer value, [n] bytes wide (the value is
    taken modulo [2^(8n)], as [ToUint16] and [ToUint32] do). *)
Fixpoint le_bytes (index : nat) (n : nat) (v : Z) : list (nat * Z) :=
  match n with
  | O => []
  | S k => (index, Z.modulo v 256) :: le_bytes (S index) k (Z.div v 256)
  end.

Definition set_uint16 (index : nat) (v : Z) := le_bytes index 2 (Z.modulo v 65536).
Definition set_uint32 (index : nat) (v : Z) := le_bytes index 4 (Z.modulo v 4294967296).
Definition set_int16 (index : nat) (x : jsnum) := le_bytes index 2 (Z.modulo (to_int16 x) 65536).

(** [writeString(view, offset, string)]: one [setUint8] per character. *)
Fixpoint write_string (offset : nat) (s : string) : list (nat * Z) :=
  match s with
  | EmptyString => []
  | String a r => (offset, Z.of_nat (nat_of_ascii a)) :: write_string (S offset) r
  end.

(** The header writes of [bufferToWave], in order. *)
Definition header_writes (numOfChan : nat) (length : Z) (rate : Z) : list (nat * Z) :=
  write_string 0 "RIFF" ++ set_uint32 4 (36 + length) ++
  write_string 8 "WAVE" ++ write_string 12 "fmt " ++
  set_uint32 16 16 ++ set_uint16 20 1 ++ set_uint16 22 (Z.of_nat numOfChan) ++
  set_uint32 24 rate ++ set_uint32 28 (rate * 2 * Z.of_nat numOfChan) ++
  set_uint16 32 (Z.of_nat numOfChan * 2) ++ set_uint16 34 16 ++
  write_string 36 "data" ++ set_uint32 40 length.

(** The sample writes: channel [i] outer, frame [j] inner, at
    [44 + (j * numOfChan + i) * 2]. *)
Definition data_writes (ab : audio_buffer) : list (nat * Z) :=
  let numOfChan := numberOfChannels ab in
  flat_map (fun i =>
    flat_map (fun j =>
      set_int16 (44 + (j * numOfChan + i) * 2)
                (sample_to_pcm (clamp (sample_at ab i j))))
      (seq 0 (frames ab)))
    (seq 0 numOfChan).

(** [view.setUint8(index, byte)] on the buffer. *)
Definition set_byte (buf : list Z) (w : nat * Z) : option (list Z) :=
  if Nat.ltb (fst w) (List.length buf) then Some (upd buf (fst w) (snd w)) else None.

Fixpoint write_all (buf : list Z) (ws : list (nat * Z)) : option (list Z) :=
  match ws with
  | [] => Some buf
  | w :: r =>
      match set_byte buf w with
      | Some buf' => write_all buf' r
      | None => None
      end
  end.

(** [bufferToWave(abuffer)]: a zeroed [ArrayBuffer(44 + length)] with
    [length = abuffer.length * numOfChan * 2], header then samples. *)
Definition bufferToWave (ab : audio_buffer) : option (list Z) :=
  let numOfChan := numberOfChannels ab in
  let length := (frames ab * numOfChan * 2)%nat in
  write_all (repeat 0 (44 + length))
    (header_writes numOfChan (Z.of_nat length) (sampleRate ab) ++ data_writes ab).

(** A number within [[lo, hi]] ([NaN] counts as within). *)
Definition within (lo hi : Q) (x : jsnum) : Prop :=
  match x with
  | Num q => (lo <= q /\ q <= hi)%Q
  | NaN => True
  end.

(** [setInt16] stores the value without wrapping around. *)
Definition stored_exactly (x : jsnum) : Prop :=
  match x with
  | Num q => to_int16 x = trunc q
  | NaN => to_int16 x = 0
  end.

End Wav.

(** ** Observations used by the statements below *)

Module Observations.
Import Equalizer Batch.

(** The value pushed by the normalizing branch of the setter. *)
Definition norm_val (max_el min_el v : Q) : Q :=
  (v - min_el) / (max_el - min_el) * 2 - 1.

(** Whether the character [c] occurs in [s]. *)
Fixpoint has_char (c : ascii) (s : string) : bool :=
  match s with
  | EmptyString => false
  | String a r => Ascii.eqb a c || has_char c r
  end.

(** A run state with its console log forgotten. *)
Definition strip (st : run_state) : run_state :=
  mk_run (totalJobs st) (completedJobs st) (skippedJobs st) (skippedFiles st)
    (invoked st) (saved st) (completeSignals st) [].

(** The probe that answers [false] wherever [probe] fails. *)
Definition probe_as_absent (probe : string -> probe_result) (id : string) : probe_result :=
  match probe id with
  | ProbeFailed => Responded false
  | r => r
  end.

(** The value [checkFileExists] resolves to: [data.exists], or [false]
    when the request fails. *)
Definition exists_answer (probe : string -> probe_result) (id : string) : bool :=
  match probe id with
  | Responded b => b
  | ProbeFailed => false
  end.

(** The number of elements of [l] satisfying [f]. *)
Definition count {A} (f : A -> bool) (l : list A) : nat := length (filter f l).

(** The object [s] with [this.param.range] set to [r] and nothing else
    changed. *)
Definition with_range (s : eq_state) (r : Q) : eq_state :=
  {| normalize := normalize s; param_curve := param_curve s;
     param_range := r; gains := gains s |}.

(** [DataView] reads of the encoded buffer, little-endian, as a WAV reader
    would do them: [getUint8], an [n]-byte unsigned read ([getUint16],
    [getUint32]) and [getInt16]. *)
Definition getUint8 (bytes : list Z) (k : nat) : Z := nth k bytes 0%Z.

Fixpoint get_le (bytes : list Z) (k n : nat) : Z :=
  match n with
  | O => 0%Z
  | S m => (getUint8 bytes k + 256 * get_le bytes (S k) m)%Z
  end.

Definition getUint16 (bytes : list Z) (k : nat) : Z := get_le bytes k 2.
Definition getUint32 (bytes : list Z) (k : nat) : Z := get_le bytes k 4.
Definition getInt16 (bytes : list Z) (k : nat) : Z :=
  let u := get_le bytes k 2 in
  if (u >=? 32768)%Z then (u - 65536)%Z else u.

(** The character codes of a string, as [writeString] stores them. *)
Fixpoint char_codes (s : string) : list Z :=
  match s with
  | EmptyString => []
  | String a r => Z.of_nat (nat_of_ascii a) :: char_codes r
  end.

End Observations.

(** ** Concrete inputs used by the statements below *)

Module Scenarios.
Import Derive Batch Server Pipeline.
Open Scope string_scope.

(** Three sources and four EQ presets (the §8 scenario of the design notes),
    with the presets under [presets/] and the outputs under [out/]. *)
Definition sources : list string := ["drums.wav"; "piano.wav"; "guitar.wav"].
Definition eq_presets : list string := ["eq_1.json"; "eq_2.json"; "eq_3.json"; "eq_4.json"].
Definition preset_store : fsys :=
  [("presets/eq_1.json", "{}"); ("presets/eq_2.json", "{}");
   ("presets/eq_3.json", "{}"); ("presets/eq_4.json", "{}")].

Definition first_run : eq_run :=
  run_eq "out" "presets" (fun _ => []) (fun _ => true) sources eq_presets preset_store.

Definition second_run : eq_run :=
  run_eq "out" "presets" (fun _ => []) (fun _ => true) sources eq_presets
    (files_after first_run).

End Scenarios.

(* ================================================================== *)
(** * Proofs *)
(* ================================================================== *)

(** ** Array updates *)

Lemma upd_length {A} (xs : list A) i v : length (upd xs i v) = length xs.
Proof.
  revert i; induction xs as [|x r IH]; intros [|i]; simpl; auto.
Qed.

Lemma nth_upd_same {A} (xs : list A) i v d :
  (i < length xs)%nat -> nth i (upd xs i v) d = v.
Proof.
  revert i; induction xs as [|x r IH]; intros [|i] H; simpl in *; try lia; auto.
  apply IH; lia.
Qed.

Lemma nth_upd_other {A} (xs : list A) i k v d :
  i <> k -> nth k (upd xs i v) d = nth k xs d.
Proof.
  revert i k; induction xs as [|x r IH]; intros [|i] [|k] H; simpl; auto;
    try congruence.
Qed.

Module EqualizerFacts.
Import Equalizer Observations.
Open Scope Q_scope.


(** ** The extrema scan *)

Lemma Qltb_true x y : Qltb x y = true <-> x < y.
Proof.
  unfold Qltb. rewrite negb_true_iff.
  split; intro H.
  - apply Qnot_le_lt. intro C. apply Qle_bool_iff in C. congruence.
  - destruct (Qle_bool y x) eqn:E; auto.
    apply Qle_bool_iff in E. exfalso. apply (Qlt_not_le _ _ H E).
Qed.

Lemma Qltb_false x y : Qltb x y = false <-> y <= x.
Proof.
  unfold Qltb. rewrite negb_false_iff. apply Qle_bool_iff.
Qed.

(** The scan only grows [max_el], only shrinks [min_el], and brackets
    every value it has seen. *)
Lemma scan_extrema_bounds : forall value M m,
  m <= M ->
  let '(M', m') := scan_extrema M m value in
  M <= M' /\ m' <= m /\ Forall (fun v => m' <= v /\ v <= M') value.
Proof.
  induction value as [|v r IH]; intros M m Hmm; simpl.
  - split; [apply Qle_refl | split; [apply Qle_refl | constructor]].
  - set (M1 := if Qltb M v then v else M).
    set (m1 := if Qltb v m then v else m).
    assert (HM1 : M <= M1 /\ v <= M1).
    { unfold M1; destruct (Qltb M v) eqn:E.
      - apply Qltb_true in E. split; [apply Qlt_le_weak; auto | apply Qle_refl].
      - apply Qltb_false in E. split; [apply Qle_refl | auto]. }
    assert (Hm1 : m1 <= m /\ m1 <= v).
    { unfold m1; destruct (Qltb v m) eqn:E.
      - apply Qltb_true in E. split; [apply Qlt_le_weak; auto | apply Qle_refl].
      - apply Qltb_false in E. split; [apply Qle_refl | auto]. }
    assert (Hle : m1 <= M1) by lra.
    specialize (IH M1 m1 Hle).
    destruct (scan_extrema M1 m1 r) as [M' m'].
    destruct IH as (HM' & Hm' & HF).
    split; [lra | split; [lra | constructor; [split; lra | exact HF]]].
Qed.

(** Each extremum is its start value or one of the values. *)
Lemma scan_extrema_mem : forall value M m,
  let '(M', m') := scan_extrema M m value in
  (M' = M \/ In M' value) /\ (m' = m \/ In m' value).
Proof.
  induction value as [|v r IH]; intros M m; simpl; auto.
  specialize (IH (if Qltb M v then v else M) (if Qltb v m then v else m)).
  destruct (scan_extrema _ _ r) as [M' m'].
  destruct IH as [[HM|HM] [Hm|Hm]];
    destruct (Qltb M v); destruct (Qltb v m); subst; tauto.
Qed.

Lemma extrema_facts value :
  0 <= max_el_of value /\ min_el_of value <= 0 /\
  Forall (fun v => min_el_of value <= v /\ v <= max_el_of value) value /\
  (max_el_of value = 0 \/ In (max_el_of value) value) /\
  (min_el_of value = 0 \/ In (min_el_of value) value).
Proof.
  unfold max_el_of, min_el_of.
  pose proof (scan_extrema_bounds value 0 0 (Qle_refl 0)) as B.
  pose proof (scan_extrema_mem value 0 0) as Mm.
  destruct (scan_extrema 0 0 value) as [M m]; simpl.
  destruct B as (? & ? & ?). tauto.
Qed.

(** ** The setter loop *)

(** The setter loop never touches the gains of the bands before [i]. *)
Lemma apply_curve_prefix : forall norm range M m value i curve gs k,
  (k < i)%nat ->
  nth k (snd (apply_curve norm range M m i value curve gs)) NaN = nth k gs NaN.
Proof.
  intros norm range M m value; induction value as [|v r IH];
    intros i curve gs k Hk; simpl; auto.
  rewrite IH by lia. apply nth_upd_other; lia.
Qed.

Lemma apply_curve_length : forall norm range M m value i curve gs,
  length (snd (apply_curve norm range M m i value curve gs)) = length gs.
Proof.
  intros norm range M m value; induction value as [|v r IH];
    intros i curve gs; simpl; auto.
  rewrite IH. apply upd_length.
Qed.

(** In the non-degenerate normalizing case the loop stores the normalized
    values and sets gain [i + k] to [range * 5 * normalized_k]. *)
Lemma apply_curve_norm : forall range M m,
  Qeq_bool M m = false ->
  forall value i curve gs,
  length curve = i ->
  fst (apply_curve true range M m i value curve gs) =
    curve ++ map (norm_val M m) value /\
  forall k, (k < length value)%nat -> (i + k < length gs)%nat ->
    nth (i + k) (snd (apply_curve true range M m i value curve gs)) NaN =
    Num (range * 5 * norm_val M m (nth k value 0)).
Proof.
  intros range M m Hne value; induction value as [|v r IH];
    intros i curve gs Hlen; simpl.
  - split; [rewrite app_nil_r; reflexivity | intros k Hk; simpl in Hk; lia].
  - rewrite Hne; simpl.
    assert (Hat : curve_at (curve ++ [(v - m) / (M - m) * 2 - 1]) i =
                  Num (norm_val M m v)).
    { unfold curve_at, norm_val. rewrite nth_error_app2 by lia.
      rewrite Hlen, Nat.sub_diag. reflexivity. }
    rewrite Hat.
    destruct (IH (S i) (curve ++ [(v - m) / (M - m) * 2 - 1])
                (upd gs i (Num (range * 5 * norm_val M m v)))) as [H1 H2].
    { rewrite length_app; simpl; lia. }
    split.
    + rewrite H1, <- app_assoc. reflexivity.
    + intros [|k] Hk Hi.
      * rewrite Nat.add_0_r, apply_curve_prefix by lia.
        apply nth_upd_same. lia.
      * replace (i + S k)%nat with (S i + k)%nat by lia.
        apply H2; [simpl in Hk; lia | rewrite upd_length; lia].
Qed.

(** ** Unfolding the setter *)

Lemma set_curve_40 s value :
  length value = 40%nat ->
  set_curve s value =
  {| normalize := normalize s;
     param_curve := fst (apply_curve (normalize s) (param_range s)
                          (max_el_of value) (min_el_of value) 0 value [] (gains s));
     param_range := param_range s;
     gains := snd (apply_curve (normalize s) (param_range s)
                    (max_el_of value) (min_el_of value) 0 value [] (gains s)) |}.
Proof.
  intro H. unfold set_curve, curve_setter, max_el_of, min_el_of.
  rewrite H. simpl.
  destruct (scan_extrema 0 0 value) as [M m]. simpl.
  destruct (apply_curve _ _ M m 0 value [] (gains s)); reflexivity.
Qed.

Lemma norm_val_bounds M m v :
  m <= v -> v <= M -> ~ M == m -> -1 <= norm_val M m v /\ norm_val M m v <= 1.
Proof.
  intros H1 H2 H3.
  assert (Hd : 0 < M - m).
  { destruct (Qlt_le_dec m M) as [Hl|Hl]; [lra|].
    exfalso. apply H3. apply Qle_antisym; lra. }
  assert (L : 0 <= (v - m) / (M - m)).
  { apply Qle_shift_div_l; [exact Hd | lra]. }
  assert (U : (v - m) / (M - m) <= 1).
  { apply Qle_shift_div_r; [exact Hd | lra]. }
  unfold norm_val. split; lra.
Qed.

Lemma nth_repeat_lt (c : Q) n i : (i < n)%nat -> nth i (repeat c n) 0 = c.
Proof.
  revert i; induction n as [|n IH]; intros [|i] H; simpl; try lia; auto.
  apply IH; lia.
Qed.

Lemma degenerate_iff_all_zero value :
  max_el_of value == min_el_of value <-> Forall (fun v => v == 0) value.
Proof.
  destruct (extrema_facts value) as (HM & Hm & HF & MM & Mm).
  set (M := max_el_of value) in *. set (m := min_el_of value) in *.
  split.
  - intro Heq. eapply Forall_impl; [|exact HF].
    intros v [A B]. simpl in *. lra.
  - intro Hz.
    assert (M == 0).
    { destruct MM as [E|E]; [rewrite E; apply Qeq_refl|].
      rewrite Forall_forall in Hz. apply Hz, E. }
    assert (m == 0).
    { destruct Mm as [E|E]; [rewrite E; apply Qeq_refl|].
      rewrite Forall_forall in Hz. apply Hz, E. }
    lra.
Qed.

Lemma in_repeat_eq (c x : Q) n : In x (repeat c n) -> x = c.
Proof. intro H. apply repeat_spec in H. exact H. Qed.

(** Gains and stored curve produced by a length-40 curve in the
    non-degenerate, normalizing case. *)
Lemma set_curve_norm_gains s value i :
  normalize s = true -> length value = 40%nat -> length (gains s) = 40%nat ->
  ~ max_el_of value == min_el_of value -> (i < 40)%nat ->
  gain_at (set_curve s value) i =
  Num (param_range s * 5 * norm_val (max_el_of value) (min_el_of value) (nth i value 0)).
Proof.
  intros Hn Hl Hg Hne Hi.
  rewrite set_curve_40 by exact Hl. unfold gain_at; simpl. rewrite Hn.
  assert (Hb : Qeq_bool (max_el_of value) (min_el_of value) = false).
  { destruct (Qeq_bool _ _) eqn:E; auto. apply Qeq_bool_iff in E. contradiction. }
  destruct (apply_curve_norm (param_range s) _ _ Hb value 0 [] (gains s) eq_refl)
    as [_ H2].
  apply (H2 i); lia.
Qed.

(** ** Claims about the equalizer *)

(** C7: for a length-40 curve whose effective range is not degenerate, every
    value the normalizing [curve] setter stores in [this.param.curve],
    [((curve[i] - min_el) / (max_el - min_el)) * 2 - 1], lies in [[-1, 1]]. *)
Theorem normalized_curve_in_unit_interval : forall s value,
  normalize s = true ->
  length value = 40%nat ->
  ~ max_el_of value == min_el_of value ->
  length (param_curve (set_curve s value)) = 40%nat /\
  Forall (fun q => -1 <= q /\ q <= 1) (param_curve (set_curve s value)).
Proof.
  intros s value Hn Hl Hne.
  rewrite set_curve_40 by exact Hl. simpl. rewrite Hn.
  assert (Hb : Qeq_bool (max_el_of value) (min_el_of value) = false).
  { destruct (Qeq_bool _ _) eqn:E; auto. apply Qeq_bool_iff in E. contradiction. }
  destruct (apply_curve_norm (param_range s) _ _ Hb value 0 [] (gains s) eq_refl)
    as [H1 _].
  rewrite H1. simpl. split; [rewrite length_map; exact Hl|].
  destruct (extrema_facts value) as (_ & _ & HF & _ & _).
  apply Forall_map. eapply Forall_impl; [|exact HF].
  intros v [A B]. apply norm_val_bounds; auto.
Qed.

Lemma normalized_curve_in_unit_interval_witness :
  normalize (make_equalizer (repeat 0 40) None) = true /\
  length (1 :: repeat (-2) 39) = 40%nat /\
  ~ max_el_of (1 :: repeat (-2) 39) == min_el_of (1 :: repeat (-2) 39) /\
  Forall (fun q => -1 <= q /\ q <= 1)
    (param_curve (set_curve (make_equalizer (repeat 0 40) None) (1 :: repeat (-2) 39))).
Proof.
  assert (Hne : ~ max_el_of (1 :: repeat (-2) 39) == min_el_of (1 :: repeat (-2) 39)).
  { intro H. apply Qeq_bool_iff in H. vm_compute in H. discriminate. }
  split; [reflexivity | split; [reflexivity | split; [exact Hne |]]].
  apply (normalized_curve_in_unit_interval (make_equalizer (repeat 0 40) None));
    [reflexivity | reflexivity | exact Hne].
Defined.

(** C1 (as amended): the effective range of a curve is degenerate exactly
    when every value is 0, and a curve of 40 equal nonzero values [c] is not
    degenerate: setting it gives every band the gain [range * 5] when
    [c > 0] and [- range * 5] when [c < 0]. *)
Theorem constant_curve_gains :
  (forall value : list Q,
     max_el_of value == min_el_of value <-> Forall (fun v => v == 0) value) /\
  (forall s c,
     normalize s = true -> length (gains s) = 40%nat -> ~ c == 0 ->
     forall i, (i < 40)%nat ->
     jsnum_eqb (gain_at (set_curve s (repeat c 40)) i)
               (Num (param_range s * 5 * (if Qltb 0 c then 1 else -1))) = true).
Proof.
  split; [exact degenerate_iff_all_zero|].
  intros s c Hn Hg Hc i Hi.
  destruct (extrema_facts (repeat c 40)) as (HM & Hm & HF & MM & Mm).
  assert (HcM : c <= max_el_of (repeat c 40) /\ min_el_of (repeat c 40) <= c).
  { rewrite Forall_forall in HF.
    assert (Hin : In c (repeat c 40)) by (simpl; left; reflexivity).
    destruct (HF c Hin). split; assumption. }
  assert (Hne : ~ max_el_of (repeat c 40) == min_el_of (repeat c 40)).
  { rewrite degenerate_iff_all_zero. intro Hz. inversion Hz. contradiction. }
  rewrite set_curve_norm_gains by auto.
  rewrite nth_repeat_lt by exact Hi.
  unfold jsnum_eqb. apply Qeq_bool_iff.
  destruct (Qltb 0 c) eqn:Ec.
  - apply Qltb_true in Ec.
    assert (E1 : max_el_of (repeat c 40) = c).
    { destruct MM as [E|E]; [|exact (in_repeat_eq _ _ _ E)].
      rewrite E in HcM. exfalso. lra. }
    assert (E2 : min_el_of (repeat c 40) = 0).
    { destruct Mm as [E|E]; [exact E|].
      apply in_repeat_eq in E. rewrite E in Hm. exfalso. lra. }
    rewrite E1, E2. unfold norm_val.
    apply Qmult_comp; [apply Qeq_refl|]. field. intro H. apply Hc. lra.
  - apply Qltb_false in Ec.
    assert (E1 : max_el_of (repeat c 40) = 0).
    { destruct MM as [E|E]; [exact E|].
      apply in_repeat_eq in E. rewrite E in HM.
      exfalso. apply Hc. apply Qle_antisym; lra. }
    assert (E2 : min_el_of (repeat c 40) = c).
    { destruct Mm as [E|E]; [|exact (in_repeat_eq _ _ _ E)].
      rewrite E in HcM. exfalso. apply Hc. apply Qle_antisym; lra. }
    rewrite E1, E2. unfold norm_val.
    apply Qmult_comp; [apply Qeq_refl|]. field. intro H. apply Hc. lra.
Qed.

Lemma constant_curve_gains_witness :
  normalize (make_equalizer (repeat 0 40) None) = true /\
  length (gains (make_equalizer (repeat 0 40) None)) = 40%nat /\
  ~ 5 == 0 /\ (3 < 40)%nat /\
  jsnum_eqb (gain_at (set_curve (make_equalizer (repeat 0 40) None) (repeat 5 40)) 3)
            (Num (param_range (make_equalizer (repeat 0 40) None) * 5 *
                  (if Qltb 0 5 then 1 else -1))) = true.
Proof.
  assert (H5 : ~ 5 == 0) by (intro H; discriminate H).
  split; [reflexivity | split; [reflexivity | split; [exact H5 | split; [lia |]]]].
  apply (proj2 constant_curve_gains); [reflexivity | reflexivity | exact H5 | lia].
Defined.

(** C1 fails as stated: the curve of 40 values 5 is not degenerate
    ([min_el] starts at 0), and band 0 gets the gain 5 dB, not 0 dB. *)
Lemma constant_five_curve_not_zero :
  ~ (forall i, (i < 40)%nat ->
      jsnum_eqb (gain_at (set_curve (make_equalizer (repeat 0 40) None) (repeat 5 40)) i)
                (Num 0) = true).
Proof.
  intro H. specialize (H 0%nat ltac:(lia)). vm_compute in H. discriminate H.
Qed.

(** C2: the constructor assigns [this.param.curve[i]] to the gain of band
    [i] as it is, without normalization and without [range * 5]; only the
    [curve] setter applies [range * 5 * normalized].  On the curve
    [[1, 0, ..., 0]] (normalized [[1, -1, ..., -1]]) with range 2, the
    constructed equalizer has gains 1 and 0 on bands 0 and 1, where
    [range * 5 * normalized] gives 10 and -10 (which the setter produces). *)
Theorem constructor_ignores_normalization_and_range :
  gain_at (make_equalizer (1 :: repeat 0 39) (Some 2)) 0 = Num 1 /\
  gain_at (make_equalizer (1 :: repeat 0 39) (Some 2)) 1 = Num 0 /\
  jsnum_eqb (gain_at (set_curve (make_equalizer (1 :: repeat 0 39) (Some 2))
                                (1 :: repeat 0 39)) 0) (Num 10) = true /\
  jsnum_eqb (gain_at (set_curve (make_equalizer (1 :: repeat 0 39) (Some 2))
                                (1 :: repeat 0 39)) 1) (Num (-10)) = true.
Proof. vm_compute. repeat split. Qed.

(** C3: the [range] setter re-runs the [curve] setter on the already
    normalized [this.param.curve], which normalizes it again.  For the curve
    [[3, 4, ..., 4]], setting it and then setting the range to 1 twice
    leaves band 0 at -5 dB and the stored value -1, while loading the curve
    fresh with range 1 gives band 0 the gain 2.5 dB and the stored value
    0.5. *)
Theorem range_setter_renormalizes :
  let c := 3 :: repeat 4 39 in
  let fresh := set_curve (make_equalizer c (Some 1)) c in
  let replayed := set_range (set_range (set_curve (make_equalizer c None) c) 1) 1 in
  jsnum_eqb (gain_at fresh 0) (Num (5 # 2)) = true /\
  jsnum_eqb (gain_at replayed 0) (Num (-5)) = true /\
  nth 0 (param_curve fresh) 0 == 1 # 2 /\
  nth 0 (param_curve replayed) 0 == -1.
Proof. vm_compute. repeat split. Qed.

(** C8 (as amended): a curve whose length is not 40 makes the setter return
    [-1] before touching anything, and the assignment completes normally
    with the state unchanged: no error is thrown. *)
Theorem wrong_length_curve_ignored : forall s value,
  length value <> 40%nat ->
  curve_setter s value = (Some (-1)%Z, s) /\ assign_curve s value = Normal s.
Proof.
  intros s value H.
  assert (E : curve_setter s value = (Some (-1)%Z, s)).
  { unfold curve_setter. apply Nat.eqb_neq in H. rewrite H. reflexivity. }
  split; [exact E|]. unfold assign_curve, set_curve. rewrite E. reflexivity.
Qed.

Lemma wrong_length_curve_ignored_witness :
  length (repeat 1 39) <> 40%nat /\
  curve_setter (make_equalizer (repeat 2 40) None) (repeat 1 39) =
    (Some (-1)%Z, make_equalizer (repeat 2 40) None) /\
  assign_curve (make_equalizer (repeat 2 40) None) (repeat 1 39) =
    Normal (make_equalizer (repeat 2 40) None).
Proof.
  assert (H : length (repeat (1 : Q) 39) <> 40%nat) by (rewrite repeat_length; lia).
  split; [exact H|].
  apply (wrong_length_curve_ignored (make_equalizer (repeat 2 40) None)); exact H.
Defined.

(** C8 fails as stated: setting a 39-value curve signals no error. *)
Lemma wrong_length_curve_no_error :
  ~ (exists e, assign_curve (make_equalizer (repeat 2 40) None) (repeat 1 39) = Throw e).
Proof. intros [e H]. discriminate H. Qed.

End EqualizerFacts.

(** ** Job derivation *)

Module DeriveFacts.
Import JsString Derive Observations.
Open Scope string_scope.


Lemma has_char_substring c : forall s n m,
  has_char c (substring n m s) = true -> has_char c s = true.
Proof.
  induction s as [|a r IH]; intros [|n] [|m]; simpl; auto; try discriminate.
  - intro H. apply orb_true_iff in H as [H|H]; apply orb_true_iff; [left; exact H|].
    right. apply (IH 0%nat m). exact H.
  - intro H. apply orb_true_iff. right. apply (IH n 0%nat). exact H.
  - intro H. apply orb_true_iff. right. apply (IH n (S m)). exact H.
Qed.

Lemma has_char_split c sep : forall s p,
  In p (split sep s) -> has_char c p = true -> has_char c s = true.
Proof.
  induction s as [|a r IH]; intros p Hin Hc; simpl in *.
  - destruct Hin as [<-|[]]. discriminate.
  - destruct (Ascii.eqb a sep).
    + destruct Hin as [<-|Hin]; [discriminate|].
      apply orb_true_iff. right. apply (IH p Hin Hc).
    + destruct (split sep r) as [|q qs] eqn:E.
      * destruct Hin as [<-|[]]. simpl in Hc.
        apply orb_true_iff in Hc as [Hc|Hc]; [|discriminate].
        apply orb_true_iff. left. exact Hc.
      * destruct Hin as [<-|Hin].
        -- simpl in Hc. apply orb_true_iff in Hc as [Hc|Hc];
             apply orb_true_iff; [left; exact Hc|].
           right. apply (IH q); [left; reflexivity | exact Hc].
        -- apply orb_true_iff. right. apply (IH p); [right; exact Hin | exact Hc].
Qed.

Lemma has_char_basename c s ext :
  has_char c (basename s ext) = true -> has_char c s = true.
Proof.
  unfold basename. destruct (ends_with ext s); auto.
  apply has_char_substring.
Qed.

(** A preset id taken from a directory entry holds no ['/']. *)
Lemma preset_id_no_slash e :
  has_char slash e = false -> has_char slash (preset_id e) = false.
Proof.
  intro He. unfold preset_id, show_at.
  destruct (nth_error (split underscore (basename e ".json")) 1) as [p|] eqn:E.
  - destruct (has_char slash p) eqn:Hp; auto.
    apply nth_error_In in E.
    apply has_char_split with (c := slash) in E; [|exact Hp].
    apply has_char_basename in E. congruence.
  - reflexivity.
Qed.

Lemma append_slash_inj : forall x1 x2 y1 y2,
  has_char slash x1 = false -> has_char slash x2 = false ->
  x1 ++ String slash y1 = x2 ++ String slash y2 -> x1 = x2 /\ y1 = y2.
Proof.
  induction x1 as [|a r IH]; intros [|b r2] y1 y2 H1 H2 H; simpl in *.
  - injection H as ->. auto.
  - injection H as Hb _. subst b. rewrite Ascii.eqb_refl in H2. discriminate.
  - injection H as Ha _. subst a. rewrite Ascii.eqb_refl in H1. discriminate.
  - injection H as Hab H. subst b.
    apply orb_false_iff in H1 as [_ H1]. apply orb_false_iff in H2 as [_ H2].
    destruct (IH r2 y1 y2 H1 H2 H) as [-> ->]. auto.
Qed.

(** The inner loop keeps, in order, the presets whose output is missing. *)
Lemma derive_eq_presets_spec pv ex a : forall eqs,
  fst (derive_eq_presets pv ex a eqs) =
  map (fun e => eq_job a e (pv e)) (filter (fun e => negb (ex (eq_output_path a e))) eqs).
Proof.
  induction eqs as [|e r IH]; simpl; auto.
  destruct (derive_eq_presets pv ex a r) as [js sk]; simpl in *.
  destruct (ex (eq_output_path a e)); simpl; congruence.
Qed.

Lemma derive_eq_loop_spec pv ex eqs : forall auds,
  fst (derive_eq_loop pv ex auds eqs) =
  flat_map (fun a => map (fun e => eq_job a e (pv e))
                      (filter (fun e => negb (ex (eq_output_path a e))) eqs)) auds.
Proof.
  induction auds as [|a r IH]; simpl; auto.
  pose proof (derive_eq_presets_spec pv ex a eqs) as H.
  destruct (derive_eq_presets pv ex a eqs) as [j1 s1].
  destruct (derive_eq_loop pv ex r eqs) as [j2 s2]. simpl in *. congruence.
Qed.

(** C6 (as amended): the EQ deriver lists, sources outer and presets inner
    (after keeping the [.wav] and [.json] entries), every pair whose output
    file [eq_<id>/<source>.wav] does not exist yet, with [outputId =
    "eq_<id>/<source>"], where [<id>] is the second ['_']-separated field of
    the preset file name; the reverb deriver lists every [.json] preset for
    its one source with [outputId = "reverb_<id>/<source>"].  For directory
    entries (no ['/']), equal EQ [outputId]s have equal preset ids and
    equal source names. *)
Theorem derived_jobs_and_output_ids :
  (forall pv ex audioDir eqDir,
     fst (derive_eq pv ex audioDir eqDir) =
     flat_map (fun a => map (fun e => eq_job a e (pv e))
                         (filter (fun e => negb (ex (eq_output_path a e)))
                            (filter (ends_with ".json") eqDir)))
              (filter (ends_with ".wav") audioDir)) /\
  (forall pv a reverbDir,
     map outputId (derive_reverb pv a reverbDir) =
     map (fun f => "reverb_" ++ preset_id f ++ "/" ++ basename a ".wav")
         (filter (ends_with ".json") reverbDir)) /\
  (forall a1 a2 e1 e2 p1 p2,
     has_char slash e1 = false -> has_char slash e2 = false ->
     outputId (eq_job a1 e1 p1) = outputId (eq_job a2 e2 p2) ->
     preset_id e1 = preset_id e2 /\ basename a1 ".wav" = basename a2 ".wav").
Proof.
  split; [|split].
  - intros. unfold derive_eq. apply derive_eq_loop_spec.
  - intros. unfold derive_reverb. rewrite map_map. reflexivity.
  - intros a1 a2 e1 e2 p1 p2 H1 H2 H. simpl in H.
    injection H as H.
    apply append_slash_inj in H; [exact H | apply preset_id_no_slash; exact H1 |
                                   apply preset_id_no_slash; exact H2].
Qed.

Lemma derived_jobs_and_output_ids_witness :
  has_char slash "eq_7.json" = false /\ has_char slash "eq_7_b.json" = false /\
  outputId (eq_job "drums.wav" "eq_7.json" []) =
    outputId (eq_job "drums.wav" "eq_7_b.json" []) /\
  preset_id "eq_7.json" = preset_id "eq_7_b.json" /\
  basename "drums.wav" ".wav" = basename "drums.wav" ".wav".
Proof.
  split; [reflexivity | split; [reflexivity | split; [reflexivity |]]].
  apply ((proj2 (proj2 derived_jobs_and_output_ids))
           "drums.wav" "drums.wav" "eq_7.json" "eq_7_b.json" [] []);
    reflexivity.
Defined.

(** C6 fails as stated: the distinct preset files [eq_7.json] and
    [eq_7_b.json] give the same [outputId] for the source [drums.wav]. *)
Lemma distinct_presets_same_output_id :
  map outputId (fst (derive_eq (fun _ => []) (fun _ => false)
                       ["drums.wav"] ["eq_7.json"; "eq_7_b.json"])) =
  ["eq_7/drums"; "eq_7/drums"].
Proof. vm_compute. reflexivity. Qed.

End DeriveFacts.

(** ** The EQ pipeline run twice *)

Module PipelineFacts.
Import Derive Batch Server Pipeline Scenarios.
Open Scope string_scope.

(** C4: on the 3 x 4 scenario, the first EQ run derives and renders 12
    jobs and posts [/complete] (at least once: every save callback that
    finds [completedJobs >= totalJobs] posts it).  Rerun over its outputs, the deriver
    skips all 12 pairs and hands the EQ page an empty job list: the page
    renders nothing and never posts [/complete] (only the 30-minute server
    timeout ends the run, with exit code 1).  The reverb page, given the
    same 12 jobs all reported as existing, posts [/complete] once. *)
Theorem eq_rerun_never_signals_completion :
  length (jobs first_run) = 12%nat /\
  length (invoked (page first_run)) = 12%nat /\
  (1 <= completeSignals (page first_run))%nat /\
  length (jobs second_run) = 0%nat /\
  length (skipped_at_derive second_run) = 12%nat /\
  invoked (page second_run) = [] /\
  completeSignals (page second_run) = 0%nat /\
  completeSignals (reverb_process_batch (fun _ => Responded true) (fun _ => true)
                     (map outputId (jobs first_run))) = 1%nat.
Proof. vm_compute. repeat split; auto. Qed.

End PipelineFacts.

(** ** The [/save] endpoint *)

Module ServerFacts.
Import Server Pipeline Scenarios.
Open Scope string_scope.

(** C9: saving the job [reverb_12/drums] writes [out/reverb_12/drums.wav]
    but no [out/reverb_12/drums_reverb_info.json], although the preset
    [presets/reverb_12.json] exists: [id.split('_').pop()] is ["12/drums"],
    so the server looks for [presets/reverb_12/drums.json].  The EQ server
    has the same lookup: after the first EQ run of the 3 x 4 scenario no
    [eq_info] copy exists. *)
Theorem saved_artifact_without_preset_copy :
  let fs := fst (save_reverb "out" "presets" [("presets/reverb_12.json", "{}")]
                   "reverb_12/drums" "UklGRg==") in
  lookup fs "out/reverb_12/drums.wav" = Some "UklGRg==" /\
  lookup fs "presets/reverb_12.json" = Some "{}" /\
  lookup fs "out/reverb_12/drums_reverb_info.json" = None /\
  lookup (files_after first_run) "out/eq_1/drums.wav" = Some "UklGRg==" /\
  lookup (files_after first_run) "out/eq_1/drums_eq_info.json" = None.
Proof. vm_compute. repeat split. Qed.

End ServerFacts.

(** ** The reverb page's idempotency probe *)

Module BatchFacts.
Import Batch Observations.
Open Scope string_scope.



Ltac split_runs :=
  repeat match goal with
         | st : run_state |- _ => destruct st
         end;
  unfold strip in *; simpl in *;
  repeat match goal with
         | H : mk_run _ _ _ _ _ _ _ _ = mk_run _ _ _ _ _ _ _ _ |- _ =>
             injection H as ?; subst
         end.

Lemma strip_log_error st id : strip (log_error st id) = strip st.
Proof. destruct st; reflexivity. Qed.

Lemma skip_job_strip st1 st2 id :
  strip st1 = strip st2 -> strip (skip_job st1 id) = strip (skip_job st2 id).
Proof. intro H. split_runs. reflexivity. Qed.

Lemma process_audio_strip ok st1 st2 id :
  strip st1 = strip st2 ->
  strip (fst (reverb_process_audio ok st1 id)) = strip (fst (reverb_process_audio ok st2 id)) /\
  snd (reverb_process_audio ok st1 id) = snd (reverb_process_audio ok st2 id).
Proof.
  intro H. split_runs. unfold reverb_process_audio. simpl.
  destruct (ok id); simpl; [|split; reflexivity].
  destruct (Nat.leb _ _); split; reflexivity.
Qed.

Lemma run_wave_strip ok : forall wave st1 st2,
  strip st1 = strip st2 ->
  strip (fst (run_wave (reverb_process_audio ok) st1 wave)) =
    strip (fst (run_wave (reverb_process_audio ok) st2 wave)) /\
  snd (run_wave (reverb_process_audio ok) st1 wave) =
    snd (run_wave (reverb_process_audio ok) st2 wave).
Proof.
  induction wave as [|id r IH]; intros st1 st2 H; simpl; [auto|].
  destruct (process_audio_strip ok st1 st2 id H) as [H1 H2].
  destruct (reverb_process_audio ok st1 id) as [a1 b1].
  destruct (reverb_process_audio ok st2 id) as [a2 b2]. simpl in *.
  destruct (IH a1 a2 H1) as [H3 H4].
  destruct (run_wave _ a1 r) as [c1 d1]. destruct (run_wave _ a2 r) as [c2 d2].
  simpl in *. subst. auto.
Qed.

Lemma check_wave_strip probe : forall wave st1 st2,
  strip st1 = strip st2 ->
  strip (fst (check_wave probe st1 wave)) =
    strip (fst (check_wave (probe_as_absent probe) st2 wave)) /\
  snd (check_wave probe st1 wave) = snd (check_wave (probe_as_absent probe) st2 wave).
Proof.
  induction wave as [|id r IH]; intros st1 st2 H; simpl; [auto|].
  unfold check_file_exists.
  destruct (probe id) as [b|] eqn:Ep.
  - assert (Ea : probe_as_absent probe id = Responded b)
      by (unfold probe_as_absent; rewrite Ep; reflexivity).
    rewrite Ea. destruct b.
    + pose proof (skip_job_strip st1 st2 id H) as H1.
      destruct (IH _ _ H1) as [H2 H3].
      destruct (check_wave probe (skip_job st1 id) r) as [x1 t1].
      destruct (check_wave (probe_as_absent probe) (skip_job st2 id) r) as [x2 t2].
      simpl in *. subst. auto.
    + destruct (IH _ _ H) as [H2 H3].
      destruct (check_wave probe st1 r) as [x1 t1].
      destruct (check_wave (probe_as_absent probe) st2 r) as [x2 t2].
      simpl in *. subst. auto.
  - assert (Ea : probe_as_absent probe id = Responded false)
      by (unfold probe_as_absent; rewrite Ep; reflexivity).
    rewrite Ea.
    assert (H1 : strip (log_error st1 id) = strip st2) by (rewrite strip_log_error; exact H).
    destruct (IH _ _ H1) as [H2 H3].
    destruct (check_wave probe (log_error st1 id) r) as [x1 t1].
    destruct (check_wave (probe_as_absent probe) st2 r) as [x2 t2].
    simpl in *. subst. auto.
Qed.

Lemma reverb_waves_strip probe ok : forall ws st1 st2,
  strip st1 = strip st2 ->
  strip (fst (reverb_waves probe ok st1 ws)) =
    strip (fst (reverb_waves (probe_as_absent probe) ok st2 ws)) /\
  snd (reverb_waves probe ok st1 ws) = snd (reverb_waves (probe_as_absent probe) ok st2 ws).
Proof.
  induction ws as [|w r IH]; intros st1 st2 H; simpl; [auto|].
  destruct (check_wave_strip probe w st1 st2 H) as [H1 H2].
  destruct (check_wave probe st1 w) as [a1 t1].
  destruct (check_wave (probe_as_absent probe) st2 w) as [a2 t2].
  simpl in *. subst t2.
  destruct (run_wave_strip ok t1 a1 a2 H1) as [H3 H4].
  destruct (run_wave _ a1 t1) as [c1 o1]. destruct (run_wave _ a2 t1) as [c2 o2].
  simpl in *. subst o2.
  destruct o1; [apply IH; exact H3 | simpl; auto].
Qed.

(** C5 (as amended): when the idempotency probe of a job fails,
    [checkFileExists] logs the error and answers [false], so the reverb
    page runs exactly as if the probe had answered "does not exist": the
    same jobs are rendered, saved, counted and skipped, and the same
    completion signals are sent; only the console log differs. *)
Theorem failed_probe_treated_as_absent : forall probe render_ok batchData,
  strip (reverb_process_batch probe render_ok batchData) =
  strip (reverb_process_batch (probe_as_absent probe) render_ok batchData).
Proof.
  intros probe ok jobs. unfold reverb_process_batch.
  destruct (reverb_waves_strip probe ok (waves 5 jobs) (init_run (length jobs))
              (init_run (length jobs)) eq_refl) as [H1 H2].
  destruct (reverb_waves probe ok _ _) as [a1 o1].
  destruct (reverb_waves (probe_as_absent probe) ok _ _) as [a2 o2].
  simpl in *. subst o2.
  split_runs. destruct (o1 && _); reflexivity.
Qed.

(** C5 fails as stated: with the probe failing, the job
    [reverb_1/drums] is rendered and saved as if it did not exist. *)
Lemma failed_probe_job_rendered :
  In "reverb_1/drums"
     (invoked (reverb_process_batch (fun _ => ProbeFailed) (fun _ => true) ["reverb_1/drums"])) /\
  saved (reverb_process_batch (fun _ => ProbeFailed) (fun _ => true) ["reverb_1/drums"]) =
    ["reverb_1/drums"].
Proof. vm_compute. split; [left; reflexivity | reflexivity]. Qed.

End BatchFacts.

(** ** The WAV encoder *)

Module WavFacts.
Import Wav EqualizerFacts.
Open Scope Z_scope.

Lemma write_all_ok : forall ws buf,
  Forall (fun w => (fst w < List.length buf)%nat) ws ->
  exists out, write_all buf ws = Some out /\ List.length out = List.length buf.
Proof.
  induction ws as [|w r IH]; intros buf H; simpl.
  - exists buf. auto.
  - inversion H as [|? ? Hw Hr]; subst.
    unfold set_byte. apply Nat.ltb_lt in Hw. rewrite Hw.
    destruct (IH (upd buf (fst w) (snd w))) as [out [Ho Hl]].
    + rewrite upd_length. exact Hr.
    + exists out. rewrite upd_length in Hl. auto.
Qed.

Lemma le_bytes_index : forall n index v w,
  In w (le_bytes index n v) -> (index <= fst w < index + n)%nat.
Proof.
  induction n as [|n IH]; intros index v w H; simpl in H; [contradiction|].
  destruct H as [<-|H]; simpl; [lia|].
  apply IH in H. lia.
Qed.

Lemma write_string_index : forall s offset w,
  In w (write_string offset s) -> (offset <= fst w < offset + String.length s)%nat.
Proof.
  induction s as [|a r IH]; intros offset w H; simpl in H; [contradiction|].
  destruct H as [<-|H]; simpl; [lia|].
  apply IH in H. lia.
Qed.

Lemma header_writes_index c len rate w :
  In w (header_writes c len rate) -> (fst w < 44)%nat.
Proof.
  unfold header_writes, set_uint16, set_uint32.
  intro H.
  repeat (apply in_app_or in H; destruct H as [H|H]);
    first [ apply write_string_index in H; simpl in H; lia
          | apply le_bytes_index in H; lia ].
Qed.

Lemma data_writes_index ab w :
  In w (data_writes ab) ->
  (fst w < 44 + frames ab * numberOfChannels ab * 2)%nat.
Proof.
  unfold data_writes, set_int16. intro H.
  apply in_flat_map in H as [i [Hi H]]. apply in_seq in Hi.
  apply in_flat_map in H as [j [Hj H]]. apply in_seq in Hj.
  apply le_bytes_index in H.
  assert (j * numberOfChannels ab + i < frames ab * numberOfChannels ab)%nat by nia.
  lia.
Qed.

Lemma clamp_within x : within (-1) 1 (clamp x).
Proof.
  destruct x as [q|]; simpl; [|exact I].
  destruct (Qltb q 1) eqn:E1.
  - apply Qltb_true in E1.
    destruct (Qltb (-1) q) eqn:E2.
    + apply Qltb_true in E2. split; lra.
    + split; lra.
  - apply Qltb_false in E1.
    destruct (Qltb (-1) 1) eqn:E2; split; lra.
Qed.

Lemma pcm_within x : within (-1) 1 x -> within (-32768) 32767 (sample_to_pcm x).
Proof.
  destruct x as [q|]; simpl; [|auto].
  intros [H1 H2]. destruct (Qltb q 0) eqn:E.
  - apply Qltb_true in E. simpl. split; lra.
  - apply Qltb_false in E. simpl. split; lra.
Qed.

Lemma trunc_bounds q :
  (-32768 <= q)%Q -> (q <= 32767)%Q -> -32768 <= trunc q <= 32767.
Proof.
  destruct q as [n d]. unfold Qle, trunc. simpl. intros H1 H2.
  assert (Hd : 0 < Z.pos d) by lia.
  split.
  - rewrite <- (Z.quot_mul (-32768) (Z.pos d)) by lia.
    apply Z.quot_le_mono; lia.
  - rewrite <- (Z.quot_mul 32767 (Z.pos d)) by lia.
    apply Z.quot_le_mono; lia.
Qed.

Lemma to_int16_exact q :
  (-32768 <= q)%Q -> (q <= 32767)%Q -> to_int16 (Num q) = trunc q.
Proof.
  intros H1 H2. pose proof (trunc_bounds q H1 H2) as [T1 T2].
  unfold to_int16. set (t := trunc q) in *.
  destruct (Z.leb_spec 0 t) as [P|P].
  - rewrite Z.mod_small by lia.
    destruct (Z.geb_spec t 32768); lia.
  - rewrite <- (Z.mod_unique t 65536 (-1) (t + 65536)) by lia.
    destruct (Z.geb_spec (t + 65536) 32768); lia.
Qed.

(** C10: for every audio buffer with [C] channels and [F] frames,
    [bufferToWave] returns a buffer of exactly [44 + 2 * C * F] bytes (no
    write falls outside it); every sample is clamped to [[-1, 1]] before
    the 16-bit conversion, and the scaled value ([* 0x8000] below zero,
    [* 0x7FFF] otherwise) lies in [[-32768, 32767]], so [setInt16] stores
    it without wrapping, and every stored value lies in
    [[-32768, 32767]]. *)
Theorem wave_size_and_sample_range :
  (forall ab, exists bytes,
     bufferToWave ab = Some bytes /\
     List.length bytes = (44 + 2 * numberOfChannels ab * frames ab)%nat) /\
  (forall x : jsnum,
     within (-1) 1 (clamp x) /\
     within (-32768) 32767 (sample_to_pcm (clamp x)) /\
     stored_exactly (sample_to_pcm (clamp x)) /\
     -32768 <= to_int16 (sample_to_pcm (clamp x)) <= 32767).
Proof.
  split.
  - intro ab. unfold bufferToWave.
    destruct (write_all_ok
                (header_writes (numberOfChannels ab)
                   (Z.of_nat (frames ab * numberOfChannels ab * 2)) (sampleRate ab)
                 ++ data_writes ab)
                (repeat 0 (44 + frames ab * numberOfChannels ab * 2)))
      as [out [Ho Hl]].
    + apply Forall_forall. intros w Hw. rewrite repeat_length.
      apply in_app_or in Hw as [Hw|Hw].
      * apply header_writes_index in Hw. lia.
      * apply data_writes_index in Hw. exact Hw.
    + exists out. split; [exact Ho|]. rewrite Hl, repeat_length. lia.
  - intro x.
    pose proof (clamp_within x) as Hc.
    pose proof (pcm_within _ Hc) as Hp.
    split; [exact Hc | split; [exact Hp |]].
    destruct (sample_to_pcm (clamp x)) as [q|] eqn:E; simpl in Hp; unfold stored_exactly.
    + destruct Hp as [H1 H2]. rewrite (to_int16_exact q H1 H2).
      split; [reflexivity | apply trunc_bounds; auto].
    + simpl. split; [reflexivity | lia].
Qed.

End WavFacts.

(* ================================================================== *)
(** * Further properties of the code *)
(* ================================================================== *)

(** ** Counting *)

Module CountFacts.
Import Observations.

Lemma count_partition {A} (f : A -> bool) : forall l,
  (count f l + count (fun x => negb (f x)) l = length l)%nat.
Proof.
  unfold count. induction l as [|x r IH]; simpl; auto.
  destruct (f x); simpl; lia.
Qed.

Lemma count_le {A} (f : A -> bool) l : (count f l <= length l)%nat.
Proof.
  pose proof (count_partition f l). lia.
Qed.

Lemma count_lt {A} (f : A -> bool) : forall l x,
  In x l -> f x = false -> (count f l < length l)%nat.
Proof.
  unfold count. induction l as [|y r IH]; intros x Hin Hf; simpl in *; [contradiction|].
  destruct Hin as [<-|Hin].
  - rewrite Hf. pose proof (count_le f r). unfold count in *. lia.
  - specialize (IH x Hin Hf). destruct (f y); simpl; lia.
Qed.

Lemma filter_all {A} (f : A -> bool) : forall l, forallb f l = true -> filter f l = l.
Proof.
  induction l as [|x r IH]; simpl; auto.
  intro H. apply andb_true_iff in H as [H1 H2]. rewrite H1, IH; auto.
Qed.

Lemma filter_none {A} (f : A -> bool) : forall l,
  (forall x, In x l -> f x = false) -> filter f l = [].
Proof.
  induction l as [|x r IH]; simpl; auto.
  intro H. rewrite (H x (or_introl eq_refl)). apply IH. auto.
Qed.

Lemma count_or {A} (e o : A -> bool) : forall l,
  count (fun j => e j || o j) l = (count e l + count o (filter (fun j => negb (e j)) l))%nat.
Proof.
  unfold count. induction l as [|x r IH]; simpl; auto.
  destruct (e x); simpl; [rewrite IH; lia|].
  destruct (o x); simpl; rewrite IH; lia.
Qed.

Lemma forallb_in {A} (f : A -> bool) l x : forallb f l = true -> In x l -> f x = true.
Proof.
  intros H Hin. rewrite forallb_forall in H. auto.
Qed.

Lemma count_app {A} (f : A -> bool) l1 l2 :
  count f (l1 ++ l2) = (count f l1 + count f l2)%nat.
Proof. unfold count. rewrite filter_app, length_app. reflexivity. Qed.

Lemma forallb_false {A} (f : A -> bool) : forall l,
  forallb f l = false -> exists x, In x l /\ f x = false.
Proof.
  induction l as [|x r IH]; simpl; [discriminate|].
  intro H. destruct (f x) eqn:E.
  - destruct (IH H) as [y [Hy Hf]]. exists y. auto.
  - exists x. auto.
Qed.

End CountFacts.

(** ** The wave loop of [processBatch] *)

Module WaveFacts.
Import Batch Observations CountFacts.

Lemma slices_spec {A} (size : nat) : (0 < size)%nat -> forall fuel (xs : list A),
  (length xs <= fuel)%nat ->
  concat (slices fuel size xs) = xs /\
  Forall (fun w => w <> [] /\ (length w <= size)%nat) (slices fuel size xs).
Proof.
  intros Hs fuel; induction fuel as [|f IH]; intros xs Hl.
  - destruct xs; simpl in *; [split; auto | lia].
  - destruct xs as [|x r]; simpl; [split; auto|].
    destruct (IH (skipn size (x :: r))) as [H1 H2].
    { rewrite length_skipn. lia. }
    split.
    + simpl concat. rewrite H1. apply firstn_skipn.
    + constructor; [|exact H2]. split.
      * destruct size; [lia|]. simpl. discriminate.
      * apply firstn_le_length.
Qed.

(** X1: [batchData.slice(i, i + batchSize)] for [i = 0, batchSize, ...]
    cuts the job list into waves that, put back together in order, give the
    job list again: no job is dropped, repeated or reordered; every wave is
    nonempty and holds at most [batchSize] jobs. *)
Theorem waves_partition {A} (size : nat) (xs : list A) :
  (0 < size)%nat ->
  concat (waves size xs) = xs /\
  Forall (fun w => w <> [] /\ (length w <= size)%nat) (waves size xs).
Proof.
  intro Hs. unfold waves. apply slices_spec; [exact Hs | lia].
Qed.

Lemma waves_partition_witness :
  (0 < 5)%nat /\
  concat (waves 5 [1; 2; 3; 4; 5; 6; 7]%nat) = [1; 2; 3; 4; 5; 6; 7]%nat /\
  Forall (fun w => w <> [] /\ (length w <= 5)%nat) (waves 5 [1; 2; 3; 4; 5; 6; 7]%nat).
Proof.
  split; [lia|]. apply (waves_partition 5 [1; 2; 3; 4; 5; 6; 7]%nat). lia.
Defined.

Lemma concat_waves {A} (size : nat) (xs : list A) :
  (0 < size)%nat -> concat (waves size xs) = xs.
Proof.
  intro Hs. unfold waves. apply (slices_spec size Hs); lia.
Qed.

End WaveFacts.

(** ** The job loops of the two pages *)

Module LoopFacts.
Import Batch Observations CountFacts WaveFacts.

(** One job of the reverb page. *)
Lemma reverb_pa_spec ok st id :
  let r := reverb_process_audio ok st id in
  totalJobs (fst r) = totalJobs st /\
  completedJobs (fst r) = (completedJobs st + (if ok id then 1 else 0))%nat /\
  skippedJobs (fst r) = skippedJobs st /\
  skippedFiles (fst r) = skippedFiles st /\
  invoked (fst r) = invoked st ++ [id] /\
  saved (fst r) = saved st ++ (if ok id then [id] else []) /\
  completeSignals (fst r) =
    (completeSignals st +
     (if ok id && Nat.leb (totalJobs st) (S (completedJobs st) + skippedJobs st)
      then 1 else 0))%nat /\
  snd r = ok id.
Proof.
  destruct st as [t c s sf inv sv sig ce]. unfold reverb_process_audio. simpl.
  destruct (ok id); simpl; [destruct (Nat.leb t (S (c + s))); simpl|];
    rewrite ?app_nil_r; repeat split; lia.
Qed.

(** One wave of renders on the reverb page: every job of the list is
    started, each success is counted and saved, and [/complete] is posted
    only once [completedJobs + skippedJobs] reaches [totalJobs]. *)
Lemma run_wave_spec ok : forall todo st,
  let r := run_wave (reverb_process_audio ok) st todo in
  totalJobs (fst r) = totalJobs st /\
  completedJobs (fst r) = (completedJobs st + count ok todo)%nat /\
  skippedJobs (fst r) = skippedJobs st /\
  skippedFiles (fst r) = skippedFiles st /\
  invoked (fst r) = invoked st ++ todo /\
  saved (fst r) = saved st ++ filter ok todo /\
  (completeSignals st <= completeSignals (fst r))%nat /\
  snd r = forallb ok todo /\
  ((completedJobs st + skippedJobs st + count ok todo < totalJobs st)%nat ->
     completeSignals (fst r) = completeSignals st) /\
  (forallb ok todo = true -> todo <> [] ->
     (totalJobs st <= completedJobs st + skippedJobs st + length todo)%nat ->
     (S (completeSignals st) <= completeSignals (fst r))%nat).
Proof.
  unfold count. induction todo as [|id r IH]; intros st.
  - simpl. rewrite !app_nil_r. repeat split; intros; try lia; congruence.
  - pose proof (reverb_pa_spec ok st id) as P. simpl run_wave.
    destruct (reverb_process_audio ok st id) as [st1 b1].
    specialize (IH st1).
    destruct (run_wave (reverb_process_audio ok) st1 r) as [st2 b2].
    simpl in *.
    destruct P as (P1 & P2 & P3 & P4 & P5 & P6 & P7 & P8).
    destruct IH as (H1 & H2 & H3 & H4 & H5 & H6 & H7 & H8 & H9 & H10).
    subst b1 b2.
    rewrite H5, H6, P5, P6, <- !app_assoc.
    destruct (ok id) eqn:E; simpl in *.
    + destruct (Nat.leb (totalJobs st) (S (completedJobs st + skippedJobs st))) eqn:L;
        simpl in *.
      * apply Nat.leb_le in L.
        repeat split; intros; try (solve [lia | congruence]).
      * apply Nat.leb_gt in L.
        repeat split; intros; try (solve [lia | congruence]).
        destruct r as [|y r']; [simpl in *; lia|].
        assert (S (completeSignals st1) <= completeSignals st2)%nat
          by (apply H10; auto; [discriminate | simpl in *; lia]).
        lia.
    + repeat split; intros; try (solve [lia | congruence]).
Qed.

(** The existence checks of one wave: the jobs answered [true] are counted
    and listed as skipped, the others are kept in order. *)
Lemma check_wave_spec probe : forall w st,
  let r := check_wave probe st w in
  totalJobs (fst r) = totalJobs st /\
  completedJobs (fst r) = completedJobs st /\
  skippedJobs (fst r) = (skippedJobs st + count (exists_answer probe) w)%nat /\
  skippedFiles (fst r) = skippedFiles st ++ filter (exists_answer probe) w /\
  invoked (fst r) = invoked st /\
  saved (fst r) = saved st /\
  completeSignals (fst r) = completeSignals st /\
  snd r = filter (fun j => negb (exists_answer probe j)) w.
Proof.
  unfold count. induction w as [|id r IH]; intros st.
  - simpl. rewrite app_nil_r. repeat split; lia.
  - simpl check_wave. unfold check_file_exists.
    assert (Ea : exists_answer probe id =
                 match probe id with Responded b => b | ProbeFailed => false end)
      by reflexivity.
    destruct (probe id) as [[|]|] eqn:Ep; simpl in Ea.
    + specialize (IH (skip_job st id)).
      destruct (check_wave probe (skip_job st id) r) as [st2 t2].
      simpl in *. rewrite Ea. simpl.
      destruct st; simpl in *.
      destruct IH as (H1 & H2 & H3 & H4 & H5 & H6 & H7 & H8).
      rewrite H4, <- app_assoc. repeat split; auto; lia.
    + specialize (IH st).
      destruct (check_wave probe st r) as [st2 t2].
      simpl in *. rewrite Ea. simpl.
      destruct IH as (H1 & H2 & H3 & H4 & H5 & H6 & H7 & H8).
      rewrite H8. repeat split; auto.
    + specialize (IH (log_error st id)).
      destruct (check_wave probe (log_error st id) r) as [st2 t2].
      simpl in *. rewrite Ea. simpl.
      destruct st; simpl in *.
      destruct IH as (H1 & H2 & H3 & H4 & H5 & H6 & H7 & H8).
      rewrite H8. repeat split; auto.
Qed.

(** The reverb page's wave loop when every job it renders succeeds. *)
Lemma reverb_waves_ok probe ok : forall ws st,
  (forall j, In j (concat ws) -> exists_answer probe j = false -> ok j = true) ->
  let r := reverb_waves probe ok st ws in
  snd r = true /\
  totalJobs (fst r) = totalJobs st /\
  completedJobs (fst r) =
    (completedJobs st + count (fun j => negb (exists_answer probe j)) (concat ws))%nat /\
  skippedJobs (fst r) = (skippedJobs st + count (exists_answer probe) (concat ws))%nat /\
  skippedFiles (fst r) = skippedFiles st ++ filter (exists_answer probe) (concat ws) /\
  invoked (fst r) = invoked st ++ filter (fun j => negb (exists_answer probe j)) (concat ws) /\
  saved (fst r) = saved st ++ filter (fun j => negb (exists_answer probe j)) (concat ws).
Proof.
  induction ws as [|w r IH]; intros st Hok.
  - simpl. rewrite !app_nil_r. repeat split; auto; lia.
  - simpl reverb_waves.
    pose proof (check_wave_spec probe w st) as C.
    destruct (check_wave probe st w) as [st1 todo]. simpl in C.
    destruct C as (C1 & C2 & C3 & C4 & C5 & C6 & C7 & C8). subst todo.
    assert (Hall : forallb ok (filter (fun j => negb (exists_answer probe j)) w) = true).
    { apply forallb_forall. intros j Hj. apply filter_In in Hj as [Hj Hn].
      apply Hok; [simpl; apply in_or_app; auto | apply negb_true_iff; exact Hn]. }
    pose proof (run_wave_spec ok (filter (fun j => negb (exists_answer probe j)) w) st1) as R.
    destruct (run_wave (reverb_process_audio ok) st1 _) as [st2 b]. simpl in R.
    destruct R as (R1 & R2 & R3 & R4 & R5 & R6 & R7 & R8 & R9 & R10).
    rewrite Hall in R8. subst b.
    specialize (IH st2).
    destruct (reverb_waves probe ok st2 r) as [st3 b3]. simpl in IH |- *.
    destruct IH as (I1 & I2 & I3 & I4 & I5 & I6 & I7).
    { intros j Hj. apply Hok. simpl. apply in_or_app. auto. }
    rewrite filter_all in R6 by exact Hall.
    assert (Hc : count ok (filter (fun j => negb (exists_answer probe j)) w) =
                 count (fun j => negb (exists_answer probe j)) w).
    { unfold count. rewrite filter_all by exact Hall. reflexivity. }
    rewrite !count_app, !filter_app.
    rewrite I5, I6, I7, R4, R5, R6, C4, C5, C6, <- !app_assoc.
    repeat split; auto; lia.
Qed.

(** The reverb page's wave loop posts no [/complete] while the jobs it can
    still count (skipped, or rendered successfully) cannot reach
    [totalJobs]. *)
Lemma reverb_waves_no_signal probe ok : forall ws st,
  (completedJobs st + skippedJobs st +
     count (fun j => exists_answer probe j || ok j) (concat ws) < totalJobs st)%nat ->
  let r := reverb_waves probe ok st ws in
  completeSignals (fst r) = completeSignals st /\
  totalJobs (fst r) = totalJobs st /\
  (completedJobs (fst r) + skippedJobs (fst r) <=
     completedJobs st + skippedJobs st +
     count (fun j => exists_answer probe j || ok j) (concat ws))%nat.
Proof.
  induction ws as [|w r IH]; intros st H.
  - simpl. repeat split; lia.
  - simpl reverb_waves. simpl concat in H. rewrite count_app in H.
    rewrite count_or in H.
    pose proof (check_wave_spec probe w st) as C.
    destruct (check_wave probe st w) as [st1 todo]. simpl in C.
    destruct C as (C1 & C2 & C3 & C4 & C5 & C6 & C7 & C8). subst todo.
    pose proof (run_wave_spec ok (filter (fun j => negb (exists_answer probe j)) w) st1) as R.
    destruct (run_wave (reverb_process_audio ok) st1 _) as [st2 b]. simpl in R.
    destruct R as (R1 & R2 & R3 & R4 & R5 & R6 & R7 & R8 & R9 & R10).
    assert (Hs : completeSignals st2 = completeSignals st1) by (apply R9; lia).
    simpl concat. rewrite count_app, count_or.
    destruct b.
    + specialize (IH st2).
      destruct (reverb_waves probe ok st2 r) as [st3 b3]. simpl in IH |- *.
      destruct IH as (I1 & I2 & I3); [lia|].
      repeat split; lia.
    + simpl. repeat split; lia.
Qed.

(** An EQ job behaves like a reverb job while nothing has been skipped. *)
Lemma eq_pa_reverb ok st id :
  skippedJobs st = 0%nat -> eq_process_audio ok st id = reverb_process_audio ok st id.
Proof.
  destruct st as [t c s sf inv sv sig ce]. simpl. intros ->.
  unfold eq_process_audio, reverb_process_audio. simpl.
  rewrite Nat.add_0_r. reflexivity.
Qed.

Lemma eq_run_wave_reverb ok : forall todo st,
  skippedJobs st = 0%nat ->
  run_wave (eq_process_audio ok) st todo = run_wave (reverb_process_audio ok) st todo.
Proof.
  induction todo as [|id r IH]; intros st H; simpl; auto.
  rewrite eq_pa_reverb by exact H.
  pose proof (reverb_pa_spec ok st id) as P.
  destruct (reverb_process_audio ok st id) as [st1 b1]. simpl in P.
  rewrite IH; [reflexivity | destruct P as (_ & _ & P3 & _); lia].
Qed.

(** The EQ page's wave loop when every render succeeds. *)
Lemma eq_waves_ok ok : forall ws st,
  skippedJobs st = 0%nat -> forallb ok (concat ws) = true ->
  let st' := eq_waves ok st ws in
  totalJobs st' = totalJobs st /\
  completedJobs st' = (completedJobs st + length (concat ws))%nat /\
  skippedJobs st' = 0%nat /\
  invoked st' = invoked st ++ concat ws /\
  saved st' = saved st ++ concat ws /\
  (completeSignals st <= completeSignals st')%nat /\
  (concat ws <> [] -> (totalJobs st <= completedJobs st + length (concat ws))%nat ->
     (S (completeSignals st) <= completeSignals st')%nat).
Proof.
  induction ws as [|w r IH]; intros st Hs Hok.
  - simpl. rewrite !app_nil_r. repeat split; intros; try lia; congruence.
  - simpl concat in Hok. rewrite forallb_app in Hok.
    apply andb_true_iff in Hok as [Hw Hr].
    simpl eq_waves. rewrite eq_run_wave_reverb by exact Hs.
    pose proof (run_wave_spec ok w st) as R.
    destruct (run_wave (reverb_process_audio ok) st w) as [st1 b]. simpl in R.
    destruct R as (R1 & R2 & R3 & R4 & R5 & R6 & R7 & R8 & R9 & R10).
    rewrite Hw in R8. subst b.
    rewrite filter_all in R6 by exact Hw.
    assert (Hc : count ok w = length w) by (unfold count; rewrite filter_all; auto).
    destruct (IH st1) as (I1 & I2 & I3 & I4 & I5 & I6 & I7); [lia | exact Hr |].
    set (st' := eq_waves ok st1 r) in *.
    simpl concat. rewrite length_app. intro st0. subst st0.
    rewrite I4, I5, R5, R6, <- !app_assoc.
    repeat split; try lia.
    intros Hne Hl.
    destruct (concat r) as [|y ys] eqn:Er.
    + assert (S (completeSignals st) <= completeSignals st1)%nat.
      { apply R10; [exact Hw | rewrite app_nil_r in Hne; exact Hne | simpl in Hl; lia]. }
      lia.
    + assert (S (completeSignals st1) <= completeSignals st')%nat
        by (apply I7; [discriminate | lia]).
      lia.
Qed.

(** The EQ page's wave loop posts no [/complete] while the successful
    renders cannot reach [totalJobs]. *)
Lemma eq_waves_no_signal ok : forall ws st,
  skippedJobs st = 0%nat ->
  (completedJobs st + count ok (concat ws) < totalJobs st)%nat ->
  completeSignals (eq_waves ok st ws) = completeSignals st.
Proof.
  induction ws as [|w r IH]; intros st Hs H; simpl; auto.
  simpl concat in H. rewrite count_app in H.
  rewrite eq_run_wave_reverb by exact Hs.
  pose proof (run_wave_spec ok w st) as R.
  destruct (run_wave (reverb_process_audio ok) st w) as [st1 b]. simpl in R.
  destruct R as (R1 & R2 & R3 & R4 & R5 & R6 & R7 & R8 & R9 & R10).
  assert (E1 : completeSignals st1 = completeSignals st) by (apply R9; lia).
  destruct b; [|exact E1].
  rewrite IH; [exact E1 | lia | lia].
Qed.

(** The EQ page stops after the first wave holding a failed render. *)
Lemma eq_waves_stop ok : forall ws st k,
  skippedJobs st = 0%nat ->
  (forall i, (i < k)%nat -> forallb ok (nth i ws []) = true) ->
  forallb ok (nth k ws []) = false ->
  invoked (eq_waves ok st ws) = invoked st ++ concat (firstn (S k) ws).
Proof.
  induction ws as [|w r IH]; intros st k Hs Hpre Hk.
  - destruct k; simpl in Hk; discriminate.
  - simpl eq_waves. rewrite eq_run_wave_reverb by exact Hs.
    pose proof (run_wave_spec ok w st) as R.
    destruct (run_wave (reverb_process_audio ok) st w) as [st1 b]. simpl in R.
    destruct R as (R1 & R2 & R3 & R4 & R5 & R6 & R7 & R8 & R9 & R10).
    subst b. destruct k as [|k].
    + simpl in Hk. rewrite Hk. simpl. rewrite R5, app_nil_r. reflexivity.
    + assert (Hw : forallb ok w = true) by exact (Hpre 0%nat ltac:(lia)).
      rewrite Hw. rewrite (IH st1 k); [| lia | | exact Hk].
      * rewrite R5, <- app_assoc. reflexivity.
      * intros i Hi. exact (Hpre (S i) ltac:(lia)).
Qed.

End LoopFacts.

(** ** What the two pages do with a whole job list *)

Module PageFacts.
Import Batch Observations CountFacts WaveFacts LoopFacts.
Open Scope string_scope.

(** X2: when every render succeeds, the EQ page starts every job once,
    in job order ([batch.map] starts a wave's jobs in order, and the waves
    one after the other), and counts every job as completed.  An empty job
    list posts no [/complete]. *)
Theorem eq_batch_all_rendered : forall ok jobs,
  forallb ok jobs = true ->
  invoked (eq_process_batch ok jobs) = jobs /\
  completedJobs (eq_process_batch ok jobs) = length jobs /\
  (jobs = [] -> completeSignals (eq_process_batch ok jobs) = 0%nat).
Proof.
  intros ok jobs H. unfold eq_process_batch.
  pose proof (concat_waves 8 jobs ltac:(lia)) as Hc.
  destruct (eq_waves_ok ok (waves 8 jobs) (init_run (length jobs)))
    as (H1 & H2 & H3 & H4 & H5 & H6 & H7); [reflexivity | rewrite Hc; exact H |].
  rewrite Hc in *. simpl in *.
  split; [exact H4 | split; [exact H2 |]].
  intro E. subst jobs. reflexivity.
Qed.

Lemma eq_batch_all_rendered_witness :
  forallb (fun _ => true) ["eq_1/drums"; "eq_2/drums"] = true /\
  invoked (eq_process_batch (fun _ => true) ["eq_1/drums"; "eq_2/drums"]) =
    ["eq_1/drums"; "eq_2/drums"] /\
  completedJobs (eq_process_batch (fun _ => true) ["eq_1/drums"; "eq_2/drums"]) = 2%nat /\
  (["eq_1/drums"; "eq_2/drums"] = [] ->
   completeSignals (eq_process_batch (fun _ => true) ["eq_1/drums"; "eq_2/drums"]) = 0%nat).
Proof.
  split; [reflexivity|].
  apply (eq_batch_all_rendered (fun _ => true) ["eq_1/drums"; "eq_2/drums"]).
  reflexivity.
Defined.

(** X3: on the EQ page a failed render rejects its wave's [Promise.all],
    which ends [processBatch]: if wave [k] is the first wave holding a job
    whose render fails, exactly the jobs of waves [0..k] are started, and
    [/complete] is never posted. *)
Theorem eq_failed_render_stops_batch : forall ok jobs k,
  (forall i, (i < k)%nat -> forallb ok (nth i (waves 8 jobs) []) = true) ->
  forallb ok (nth k (waves 8 jobs) []) = false ->
  invoked (eq_process_batch ok jobs) = concat (firstn (S k) (waves 8 jobs)) /\
  completeSignals (eq_process_batch ok jobs) = 0%nat.
Proof.
  intros ok jobs k Hpre Hk. unfold eq_process_batch. split.
  - rewrite (eq_waves_stop ok (waves 8 jobs) (init_run (length jobs)) k);
      [reflexivity | reflexivity | exact Hpre | exact Hk].
  - apply forallb_false in Hk as [j [Hj Hf]].
    assert (Hin : In j jobs).
    { rewrite <- (concat_waves 8 jobs) by lia. apply in_concat.
      exists (nth k (waves 8 jobs) []). split; [|exact Hj].
      apply nth_In. destruct (Nat.lt_ge_cases k (length (waves 8 jobs))) as [L|L];
        [exact L|].
      rewrite nth_overflow in Hj by exact L. contradiction. }
    apply (eq_waves_no_signal ok (waves 8 jobs) (init_run (length jobs)));
      [reflexivity|].
    rewrite (concat_waves 8 jobs) by lia. simpl.
    exact (count_lt ok jobs j Hin Hf).
Qed.

Lemma eq_failed_render_stops_batch_witness :
  let ok := fun id => negb (String.eqb id "j9") in
  let jobs := ["j1"; "j2"; "j3"; "j4"; "j5"; "j6"; "j7"; "j8";
               "j9"; "j10"; "j11"; "j12"; "j13"; "j14"; "j15"; "j16";
               "j17"; "j18"] in
  (forall i, (i < 1)%nat -> forallb ok (nth i (waves 8 jobs) []) = true) /\
  forallb ok (nth 1 (waves 8 jobs) []) = false /\
  invoked (eq_process_batch ok jobs) = concat (firstn 2 (waves 8 jobs)) /\
  completeSignals (eq_process_batch ok jobs) = 0%nat.
Proof.
  intros ok jobs.
  assert (Hpre : forall i, (i < 1)%nat -> forallb ok (nth i (waves 8 jobs) []) = true).
  { intros [|i] Hi; [vm_compute; reflexivity | lia]. }
  assert (Hk : forallb ok (nth 1 (waves 8 jobs) []) = false) by (vm_compute; reflexivity).
  split; [exact Hpre | split; [exact Hk |]].
  apply (eq_failed_render_stops_batch ok jobs 1 Hpre Hk).
Defined.

(** X4: when every job the reverb page renders succeeds, the jobs whose
    existence check answered [true] are skipped and listed in
    [skippedFiles], in order (the checks are awaited one by one), exactly
    the other jobs are started, in order, [completedJobs + skippedJobs]
    ends at [totalJobs], and the check after the loop posts [/complete]
    (also for an empty job list). *)
Theorem reverb_batch_all_rendered : forall probe ok jobs,
  (forall j, In j jobs -> exists_answer probe j = false -> ok j = true) ->
  skippedFiles (reverb_process_batch probe ok jobs) = filter (exists_answer probe) jobs /\
  invoked (reverb_process_batch probe ok jobs) =
    filter (fun j => negb (exists_answer probe j)) jobs /\
  (completedJobs (reverb_process_batch probe ok jobs) +
   skippedJobs (reverb_process_batch probe ok jobs))%nat = length jobs /\
  (1 <= completeSignals (reverb_process_batch probe ok jobs))%nat.
Proof.
  intros probe ok jobs H. unfold reverb_process_batch.
  pose proof (concat_waves 5 jobs ltac:(lia)) as Hc.
  destruct (reverb_waves_ok probe ok (waves 5 jobs) (init_run (length jobs)))
    as (H1 & H2 & H3 & H4 & H5 & H6 & H7); [rewrite Hc; exact H |].
  destruct (reverb_waves probe ok (init_run (length jobs)) (waves 5 jobs)) as [st b].
  simpl in *. subst b. rewrite Hc in *.
  pose proof (count_partition (exists_answer probe) jobs) as P.
  assert (L : Nat.leb (totalJobs st) (completedJobs st + skippedJobs st) = true)
    by (apply Nat.leb_le; lia).
  rewrite L. simpl. repeat split; auto; lia.
Qed.

Lemma reverb_batch_all_rendered_witness :
  let probe := fun id => if String.eqb id "reverb_1/drums" then Responded true
                         else ProbeFailed in
  let jobs := ["reverb_1/drums"; "reverb_2/drums"] in
  (forall j, In j jobs -> exists_answer probe j = false -> (fun _ => true) j = true) /\
  skippedFiles (reverb_process_batch probe (fun _ => true) jobs) = ["reverb_1/drums"] /\
  invoked (reverb_process_batch probe (fun _ => true) jobs) = ["reverb_2/drums"].
Proof.
  intros probe jobs.
  assert (H : forall j, In j jobs -> exists_answer probe j = false -> (fun _ => true) j = true)
    by (intros; reflexivity).
  split; [exact H|].
  destruct (reverb_batch_all_rendered probe (fun _ => true) jobs H) as (H1 & H2 & _).
  rewrite H1, H2. split; reflexivity.
Defined.

(** X5: on the reverb page, a job that is not reported as existing and
    whose render fails is neither completed nor skipped, so
    [completedJobs + skippedJobs] never reaches [totalJobs] and [/complete]
    is never posted. *)
Theorem reverb_failed_render_never_completes : forall probe ok jobs j,
  In j jobs -> exists_answer probe j = false -> ok j = false ->
  completeSignals (reverb_process_batch probe ok jobs) = 0%nat.
Proof.
  intros probe ok jobs j Hin He Hf. unfold reverb_process_batch.
  assert (Hlt : (count (fun x => exists_answer probe x || ok x) jobs < length jobs)%nat).
  { apply (count_lt _ jobs j Hin). rewrite He, Hf. reflexivity. }
  destruct (reverb_waves_no_signal probe ok (waves 5 jobs) (init_run (length jobs)))
    as (H1 & H2 & H3); [rewrite concat_waves by lia; simpl; lia |].
  destruct (reverb_waves probe ok (init_run (length jobs)) (waves 5 jobs)) as [st b].
  simpl in *. rewrite concat_waves in H3 by lia.
  assert (L : Nat.leb (totalJobs st) (completedJobs st + skippedJobs st) = false)
    by (apply Nat.leb_gt; lia).
  rewrite L, andb_false_r. exact H1.
Qed.

Lemma reverb_failed_render_never_completes_witness :
  In "reverb_2/drums" ["reverb_1/drums"; "reverb_2/drums"] /\
  exists_answer (fun _ => Responded false) "reverb_2/drums" = false /\
  (fun id => negb (String.eqb id "reverb_2/drums")) "reverb_2/drums" = false /\
  completeSignals (reverb_process_batch (fun _ => Responded false)
                     (fun id => negb (String.eqb id "reverb_2/drums"))
                     ["reverb_1/drums"; "reverb_2/drums"]) = 0%nat.
Proof.
  split; [simpl; auto | split; [reflexivity | split; [reflexivity |]]].
  apply (reverb_failed_render_never_completes (fun _ => Responded false)
           (fun id => negb (String.eqb id "reverb_2/drums"))
           ["reverb_1/drums"; "reverb_2/drums"] "reverb_2/drums");
    [simpl; auto | reflexivity | reflexivity].
Defined.

End PageFacts.

(** ** The server's file operations *)

Module ServerExtraFacts.
Import JsString Server.
Open Scope string_scope.

Lemma str_app_assoc : forall a b c : string, (a ++ b) ++ c = a ++ (b ++ c).
Proof. induction a as [|x r IH]; intros b c; simpl; [reflexivity | rewrite IH; reflexivity]. Qed.









End ServerExtraFacts.

(** ** More of the equalizer setters *)

Module EqualizerExtraFacts.
Import Equalizer Observations EqualizerFacts.
Open Scope Q_scope.

(** With [this.normalize] off the setter loop stores the values as given
    and sets gain [i + k] to [range * 5 * value[k]]. *)
Lemma apply_curve_raw : forall range M m value i curve gs,
  length curve = i ->
  fst (apply_curve false range M m i value curve gs) = curve ++ value /\
  forall k, (k < length value)%nat -> (i + k < length gs)%nat ->
    nth (i + k) (snd (apply_curve false range M m i value curve gs)) NaN =
    Num (range * 5 * nth k value 0).
Proof.
  intros range M m value; induction value as [|v r IH];
    intros i curve gs Hlen; simpl.
  - split; [rewrite app_nil_r; reflexivity | intros k Hk; simpl in Hk; lia].
  - assert (Hat : curve_at (curve ++ [v]) i = Num v).
    { unfold curve_at. rewrite nth_error_app2 by lia.
      rewrite Hlen, Nat.sub_diag. reflexivity. }
    rewrite Hat.
    destruct (IH (S i) (curve ++ [v]) (upd gs i (Num (range * 5 * v)))) as [H1 H2].
    { rewrite length_app; simpl; lia. }
    split.
    + rewrite H1, <- app_assoc. reflexivity.
    + intros [|k] Hk Hi.
      * rewrite Nat.add_0_r, apply_curve_prefix by lia.
        apply nth_upd_same. lia.
      * replace (i + S k)%nat with (S i + k)%nat by lia.
        apply H2; [simpl in Hk; lia | rewrite upd_length; lia].
Qed.

(** X9: with [this.normalize] off, setting a 40-value curve stores it as
    given and gives band [i] the gain [range * 5 * curve[i]]; a later
    range change to [r] keeps the stored curve and gives band [i] the gain
    [r * 5 * curve[i]]. *)
Theorem raw_curve_stored_as_given : forall s value r,
  normalize s = false -> length value = 40%nat -> length (gains s) = 40%nat ->
  param_curve (set_curve s value) = value /\
  (forall i, (i < 40)%nat ->
     gain_at (set_curve s value) i = Num (param_range s * 5 * nth i value 0)) /\
  param_curve (set_range (set_curve s value) r) = value /\
  (forall i, (i < 40)%nat ->
     gain_at (set_range (set_curve s value) r) i = Num (r * 5 * nth i value 0)).
Proof.
  intros s value r Hn Hl Hg.
  assert (Step : forall s0, normalize s0 = false -> length (gains s0) = 40%nat ->
            normalize (set_curve s0 value) = false /\
            length (gains (set_curve s0 value)) = 40%nat /\
            param_range (set_curve s0 value) = param_range s0 /\
            param_curve (set_curve s0 value) = value /\
            forall i, (i < 40)%nat ->
              gain_at (set_curve s0 value) i = Num (param_range s0 * 5 * nth i value 0)).
  { intros s0 Hn0 Hg0. rewrite set_curve_40 by exact Hl. unfold gain_at; simpl.
    rewrite Hn0.
    destruct (apply_curve_raw (param_range s0) (max_el_of value) (min_el_of value)
                value 0 [] (gains s0) eq_refl) as [H1 H2].
    repeat split; auto.
    - rewrite apply_curve_length. exact Hg0.
    - intros i Hi. apply (H2 i); lia. }
  destruct (Step s Hn Hg) as (S1 & S2 & S3 & S4 & S5).
  repeat split; auto.
  - unfold set_range. rewrite S4.
    apply (Step {| normalize := _; param_curve := _; param_range := r; gains := _ |});
      simpl; auto.
  - intros i Hi. unfold set_range. rewrite S4.
    apply (Step {| normalize := _; param_curve := _; param_range := r; gains := _ |});
      simpl; auto.
Qed.

Lemma raw_curve_stored_as_given_witness :
  let s := {| normalize := false; param_curve := []; param_range := 1;
              gains := repeat NaN 40 |} in
  normalize s = false /\ length (3 :: repeat (-1) 39) = 40%nat /\
  length (gains s) = 40%nat /\
  gain_at (set_range (set_curve s (3 :: repeat (-1) 39)) 2) 0 = Num (2 * 5 * 3).
Proof.
  intro s.
  assert (H2 : length (3 :: repeat (-1) 39) = 40%nat) by reflexivity.
  split; [reflexivity | split; [exact H2 | split; [reflexivity |]]].
  destruct (raw_curve_stored_as_given s (3 :: repeat (-1) 39) 2 eq_refl H2 eq_refl)
    as (_ & _ & _ & H).
  apply (H 0%nat). lia.
Defined.

Lemma norm_val_at_max M m x :
  ~ M == m -> x == M -> norm_val M m x == 1.
Proof.
  intros Hne Hx. unfold norm_val. rewrite Hx. field.
  intro H. apply Hne. lra.
Qed.

Lemma norm_val_at_min M m x :
  ~ M == m -> x == m -> norm_val M m x == -1.
Proof.
  intros Hne Hx. unfold norm_val. rewrite Hx. field.
  intro H. apply Hne. lra.
Qed.

Lemma norm_val_unit M m x :
  M == 1 -> m == -1 -> norm_val M m x == x.
Proof.
  intros H1 H2. unfold norm_val. rewrite H1, H2. field.
Qed.

(** [max_el] is reached by a value as soon as one value is [>= 0]. *)
Lemma max_attained value :
  (exists v, In v value /\ 0 <= v) -> exists x, In x value /\ x == max_el_of value.
Proof.
  intros [v [Hv Hp]].
  destruct (extrema_facts value) as (HM & Hm & HF & MM & Mm).
  destruct MM as [E|E].
  - exists v. split; [exact Hv|]. rewrite Forall_forall in HF.
    destruct (HF v Hv) as [_ B]. rewrite E in *. apply Qle_antisym; lra.
  - exists (max_el_of value). split; [exact E | reflexivity].
Qed.

(** [min_el] is reached by a value as soon as one value is [<= 0]. *)
Lemma min_attained value :
  (exists v, In v value /\ v <= 0) -> exists x, In x value /\ x == min_el_of value.
Proof.
  intros [v [Hv Hp]].
  destruct (extrema_facts value) as (HM & Hm & HF & MM & Mm).
  destruct Mm as [E|E].
  - exists v. split; [exact Hv|]. rewrite Forall_forall in HF.
    destruct (HF v Hv) as [A _]. rewrite E in *. apply Qle_antisym; lra.
  - exists (min_el_of value). split; [exact E | reflexivity].
Qed.

(** A normalized curve that reaches both ends of [[-1, 1]] has the
    extrema [1] and [-1]. *)
Lemma extrema_of_unit_curve n :
  Forall (fun q => -1 <= q /\ q <= 1) n ->
  (exists x, In x n /\ x == 1) -> (exists y, In y n /\ y == -1) ->
  max_el_of n == 1 /\ min_el_of n == -1.
Proof.
  intros HB [x [Hx E1]] [y [Hy E2]].
  destruct (extrema_facts n) as (HM & Hm & HF & MM & Mm).
  rewrite Forall_forall in HF, HB.
  destruct (HF x Hx) as [_ Bx]. destruct (HF y Hy) as [By _].
  split.
  - destruct MM as [E|E]; [rewrite E in Bx; lra|].
    destruct (HB _ E). lra.
  - destruct Mm as [E|E]; [rewrite E in By; lra|].
    destruct (HB _ E). lra.
Qed.

(** X11: with [this.normalize] on, when a 40-value curve holds a value
    [>= 0] and a value [<= 0] (and not only zeros), setting it and then
    changing the range to [r] gives every band the same gain as setting
    the curve on an equalizer whose range is already [r]: re-running the
    setter on the stored curve does not move it. *)
Theorem range_change_without_drift : forall s value r i,
  normalize s = true -> length value = 40%nat -> length (gains s) = 40%nat ->
  ~ max_el_of value == min_el_of value ->
  (exists v, In v value /\ 0 <= v) -> (exists v, In v value /\ v <= 0) ->
  (i < 40)%nat ->
  jsnum_eqb (gain_at (set_range (set_curve s value) r) i)
            (gain_at (set_curve (with_range s r) value) i) = true.
Proof.
  intros s value r i Hn Hl Hg Hne Hpos Hneg Hi.
  set (M := max_el_of value) in *. set (m := min_el_of value) in *.
  set (n := map (norm_val M m) value).
  assert (Hb : Qeq_bool M m = false).
  { destruct (Qeq_bool M m) eqn:E; auto. apply Qeq_bool_iff in E. contradiction. }
  assert (S1 : set_curve s value =
               {| normalize := true; param_curve := n; param_range := param_range s;
                  gains := snd (apply_curve true (param_range s) M m 0 value [] (gains s)) |}).
  { rewrite set_curve_40 by exact Hl. rewrite Hn. fold M m.
    destruct (apply_curve_norm (param_range s) M m Hb value 0 [] (gains s) eq_refl)
      as [H1 _].
    rewrite H1. reflexivity. }
  assert (Hnl : length n = 40%nat) by (unfold n; rewrite length_map; exact Hl).
  assert (HnB : Forall (fun q => -1 <= q /\ q <= 1) n).
  { destruct (extrema_facts value) as (_ & _ & HF & _ & _).
    apply Forall_map. eapply Forall_impl; [|exact HF].
    intros v [A B]. apply norm_val_bounds; auto. }
  assert (HnE : max_el_of n == 1 /\ min_el_of n == -1).
  { apply extrema_of_unit_curve; [exact HnB | |].
    - destruct (max_attained value Hpos) as [x [Hx Ex]].
      exists (norm_val M m x). split; [apply in_map; exact Hx|].
      apply norm_val_at_max; auto.
    - destruct (min_attained value Hneg) as [y [Hy Ey]].
      exists (norm_val M m y). split; [apply in_map; exact Hy|].
      apply norm_val_at_min; auto. }
  destruct HnE as [EM Em].
  assert (Hne' : ~ max_el_of n == min_el_of n) by (rewrite EM, Em; discriminate).
  unfold set_range. rewrite S1. simpl.
  rewrite (set_curve_norm_gains
             {| normalize := true; param_curve := n; param_range := r;
                gains := snd (apply_curve true (param_range s) M m 0 value [] (gains s)) |}
             n i); simpl; auto; [| rewrite apply_curve_length; exact Hg].
  rewrite (set_curve_norm_gains (with_range s r) value i); simpl; auto.
  fold M m.
  unfold jsnum_eqb. apply Qeq_bool_iff.
  apply Qmult_comp; [reflexivity|].
  unfold n. rewrite nth_indep with (d' := norm_val M m 0) by (rewrite length_map; lia).
  rewrite map_nth.
  apply norm_val_unit; assumption.
Qed.

Lemma range_change_without_drift_witness :
  let s := make_equalizer (repeat 0 40) None in
  let c := 1 :: repeat (-2) 39 in
  normalize s = true /\ length c = 40%nat /\ length (gains s) = 40%nat /\
  ~ max_el_of c == min_el_of c /\
  (exists v, In v c /\ 0 <= v) /\ (exists v, In v c /\ v <= 0) /\ (0 < 40)%nat /\
  jsnum_eqb (gain_at (set_range (set_curve s c) 3) 0)
            (gain_at (set_curve (with_range s 3) c) 0) = true.
Proof.
  intros s c.
  assert (Hne : ~ max_el_of c == min_el_of c).
  { intro H. apply Qeq_bool_iff in H. vm_compute in H. discriminate. }
  assert (Hp : exists v, In v c /\ 0 <= v).
  { exists 1. split; [left; reflexivity | discriminate]. }
  assert (Hq : exists v, In v c /\ v <= 0).
  { exists (-2). split; [right; left; reflexivity | discriminate]. }
  split; [reflexivity | split; [reflexivity | split; [reflexivity |
    split; [exact Hne | split; [exact Hp | split; [exact Hq | split; [lia |]]]]]]].
  apply (range_change_without_drift s c 3 0 eq_refl eq_refl eq_refl Hne Hp Hq).
  lia.
Defined.

End EqualizerExtraFacts.

(** ** Reading back what [bufferToWave] wrote *)

Module WavReadFacts.
Import Wav Observations WavFacts.
Open Scope Z_scope.

Lemma write_all_untouched : forall ws buf out k,
  write_all buf ws = Some out -> (forall b, ~ In (k, b) ws) -> nth k out 0 = nth k buf 0.
Proof.
  induction ws as [|w r IH]; intros buf out k H Hn; simpl in H.
  - congruence.
  - unfold set_byte in H. destruct (Nat.ltb (fst w) (List.length buf)); [|discriminate].
    rewrite (IH _ _ k H) by (intros b Hb; apply (Hn b); right; exact Hb).
    destruct w as [x b]. simpl.
    destruct (Nat.eq_dec x k) as [->|D].
    + exfalso. apply (Hn b). left. reflexivity.
    + apply nth_upd_other. exact D.
Qed.

(** The byte at an index that is written, always with the same value. *)
Lemma write_all_hit : forall ws buf out k c,
  write_all buf ws = Some out -> In (k, c) ws ->
  (forall b, In (k, b) ws -> b = c) -> nth k out 0 = c.
Proof.
  induction ws as [|w r IH]; intros buf out k c H Hin Hu; simpl in *; [contradiction|].
  unfold set_byte in H. destruct (Nat.ltb (fst w) (List.length buf)) eqn:L; [|discriminate].
  destruct (existsb (fun w' => Nat.eqb (fst w') k) r) eqn:Ex.
  - apply existsb_exists in Ex as [[x b] [Hb Hx]]. simpl in Hx.
    apply Nat.eqb_eq in Hx. subst x.
    apply (IH _ _ k c H); [|intros b' Hb'; apply Hu; right; exact Hb'].
    rewrite <- (Hu b (or_intror Hb)). exact Hb.
  - assert (Hn : forall b, ~ In (k, b) r).
    { intros b Hb. assert (T : existsb (fun w' => Nat.eqb (fst w') k) r = true).
      { apply existsb_exists. exists (k, b). split; [exact Hb | apply Nat.eqb_refl]. }
      congruence. }
    rewrite (write_all_untouched r _ _ k H Hn).
    destruct Hin as [Hw|Hin]; [subst w|exfalso; exact (Hn c Hin)].
    simpl in *. apply Nat.ltb_lt in L. apply nth_upd_same. exact L.
Qed.

Lemma mod_mul_256 a c : 0 < c -> a mod (256 * c) = a mod 256 + 256 * ((a / 256) mod c).
Proof.
  intro Hc.
  pose proof (Z.div_mod a 256 ltac:(lia)) as E1.
  pose proof (Z.mod_pos_bound a 256 ltac:(lia)) as B1.
  pose proof (Z.div_mod (a / 256) c ltac:(lia)) as E2.
  pose proof (Z.mod_pos_bound (a / 256) c Hc) as B2.
  symmetry. apply (Z.mod_unique a (256 * c) ((a / 256) / c)).
  - left. nia.
  - nia.
Qed.

(** Reading [n] little-endian bytes back gives the value written. *)
Lemma get_le_bytes : forall n k v out,
  (forall x b, In (x, b) (le_bytes k n v) -> nth x out 0 = b) ->
  get_le out k n = v mod 256 ^ Z.of_nat n.
Proof.
  induction n as [|n IH]; intros k v out H; simpl get_le.
  - rewrite Z.pow_0_r, Z.mod_1_r. reflexivity.
  - unfold getUint8. rewrite (H k (v mod 256)) by (left; reflexivity).
    rewrite (IH (S k) (v / 256) out) by (intros x b Hb; apply H; right; exact Hb).
    rewrite Nat2Z.inj_succ, Z.pow_succ_r by lia.
    rewrite mod_mul_256 by (apply Z.pow_pos_nonneg; lia). reflexivity.
Qed.

Lemma write_string_read : forall s off out,
  (forall x b, In (x, b) (write_string off s) -> nth x out 0 = b) ->
  map (getUint8 out) (seq off (String.length s)) = char_codes s.
Proof.
  induction s as [|a r IH]; intros off out H; simpl; [reflexivity|].
  unfold getUint8 at 1. rewrite (H off (Z.of_nat (nat_of_ascii a))) by (left; reflexivity).
  rewrite IH; [reflexivity|]. intros x b Hb. apply H. right. exact Hb.
Qed.

Lemma to_int16_range x : -32768 <= to_int16 x <= 32767.
Proof.
  destruct x as [q|]; simpl; [|lia].
  pose proof (Z.mod_pos_bound (trunc q) 65536 ltac:(lia)).
  destruct (Z.geb_spec (trunc q mod 65536) 32768); lia.
Qed.

(** [getInt16] undoes [setInt16]. *)
Lemma int16_decode t :
  -32768 <= t <= 32767 ->
  (if (t mod 65536) mod 256 ^ Z.of_nat 2 >=? 32768
   then (t mod 65536) mod 256 ^ Z.of_nat 2 - 65536
   else (t mod 65536) mod 256 ^ Z.of_nat 2) = t.
Proof.
  intro Ht. change (256 ^ Z.of_nat 2) with 65536. rewrite Z.mod_mod by lia.
  destruct (Z.leb_spec 0 t) as [P|P].
  - rewrite Z.mod_small by lia. destruct (Z.geb_spec t 32768); lia.
  - rewrite <- (Z.mod_unique t 65536 (-1) (t + 65536)) by lia.
    destruct (Z.geb_spec (t + 65536) 32768); lia.
Qed.

Lemma sample_index_inj (C i j i' j' : nat) :
  (i < C)%nat -> (i' < C)%nat -> (j * C + i = j' * C + i')%nat -> i = i' /\ j = j'.
Proof.
  intros H1 H2 E.
  destruct (Nat.lt_total j j') as [L|[L|L]].
  - exfalso. assert (j * C + C <= j' * C)%nat by nia. lia.
  - subst. lia.
  - exfalso. assert (j' * C + C <= j * C)%nat by nia. lia.
Qed.

Lemma in_data_writes ab y b :
  In (y, b) (data_writes ab) ->
  exists i j, (i < numberOfChannels ab)%nat /\ (j < frames ab)%nat /\
    In (y, b) (set_int16 (44 + (j * numberOfChannels ab + i) * 2)
                         (sample_to_pcm (clamp (sample_at ab i j)))).
Proof.
  unfold data_writes. intro H.
  apply in_flat_map in H as [i [Hi H]]. apply in_seq in Hi.
  apply in_flat_map in H as [j [Hj H]]. apply in_seq in Hj.
  exists i, j. repeat split; try lia. exact H.
Qed.

Lemma nodup_fst_functional {A B} : forall (l : list (A * B)) k b c,
  NoDup (map fst l) -> In (k, b) l -> In (k, c) l -> b = c.
Proof.
  induction l as [|[x v] r IH]; intros k b c Hn Hb Hc; simpl in *; [contradiction|].
  inversion Hn as [|? ? Hx Hr]; subst.
  destruct Hb as [Eb|Hb]; destruct Hc as [Ec|Hc].
  - congruence.
  - injection Eb as <- <-. exfalso. apply Hx. apply (in_map fst) in Hc. exact Hc.
  - injection Ec as <- <-. exfalso. apply Hx. apply (in_map fst) in Hb. exact Hb.
  - exact (IH k b c Hr Hb Hc).
Qed.

Lemma header_writes_fst c len rate : map fst (header_writes c len rate) = seq 0 44.
Proof. reflexivity. Qed.

(** X12: decoding the sample area of the buffer [bufferToWave] returns
    gives back every sample as it was stored: the signed little-endian
    16-bit value at byte [44 + (j * numOfChan + i) * 2] is [ToInt16] of
    the clamped, scaled sample [j] of channel [i]; no other write of the
    encoder lands on those two bytes. *)
Theorem wave_sample_round_trip : forall ab bytes i j,
  bufferToWave ab = Some bytes ->
  (i < numberOfChannels ab)%nat -> (j < frames ab)%nat ->
  getInt16 bytes (44 + (j * numberOfChannels ab + i) * 2) =
    to_int16 (sample_to_pcm (clamp (sample_at ab i j))).
Proof.
  intros ab bytes i j H Hi Hj. unfold bufferToWave in H.
  set (C := numberOfChannels ab) in *.
  set (x := sample_to_pcm (clamp (sample_at ab i j))).
  set (idx := (44 + (j * C + i) * 2)%nat).
  unfold getInt16.
  rewrite (get_le_bytes 2 idx ((to_int16 x) mod 65536) bytes).
  { apply int16_decode. apply to_int16_range. }
  intros y b Hyb.
  assert (Hin : In (y, b) (data_writes ab)).
  { unfold data_writes. apply in_flat_map. exists i. split; [apply in_seq; lia|].
    apply in_flat_map. exists j. split; [apply in_seq; lia|]. exact Hyb. }
  apply (write_all_hit _ _ _ y b H); [apply in_or_app; right; exact Hin|].
  intros b' Hb'. apply in_app_or in Hb' as [Hb'|Hb'].
  - apply header_writes_index in Hb'. simpl in Hb', Hyb.
    destruct Hyb as [E|[E|[]]]; injection E as <- _; unfold idx in Hb'; lia.
  - apply in_data_writes in Hb' as [i' [j' [Hi' [Hj' Hb']]]].
    fold C in Hi', Hb'. unfold set_int16 in Hb', Hyb. simpl in Hb', Hyb.
    destruct Hyb as [E|[E|[]]]; destruct Hb' as [E'|[E'|[]]];
      injection E as <- <-; injection E' as E1 <-; unfold idx in E1;
      try (exfalso; nia);
      (destruct (sample_index_inj C i j i' j' Hi Hi' ltac:(lia)) as [<- <-]; reflexivity).
Qed.

Lemma wave_sample_round_trip_witness :
  let ab := mk_buffer 2 2 44100 [[Num (1 # 2); Num 2]; [Num (-1); NaN]] in
  bufferToWave ab = Some (match bufferToWave ab with Some b => b | None => [] end) /\
  (1 < numberOfChannels ab)%nat /\ (0 < frames ab)%nat /\
  getInt16 (match bufferToWave ab with Some b => b | None => [] end)
           (44 + (0 * numberOfChannels ab + 1) * 2) = -32768.
Proof.
  intro ab.
  assert (H : bufferToWave ab = Some (match bufferToWave ab with Some b => b | None => [] end))
    by (vm_compute; reflexivity).
  split; [exact H | split; [simpl; lia | split; [simpl; lia |]]].
  rewrite (wave_sample_round_trip ab (match bufferToWave ab with Some b => b | None => [] end) 1 0 H) by (simpl; lia).
  vm_compute. reflexivity.
Defined.

Ltac in_piece H :=
  unfold header_writes;
  repeat (apply in_or_app; first [left; exact H | right]);
  try exact H.

(** X13: the header of the buffer [bufferToWave] returns reads back as
    written: the tags ["RIFF"], ["WAVE"], ["fmt "] and ["data"] at bytes
    0, 8, 12 and 36, the RIFF size [36 + dataLength], the format fields
    (16, 1, [numOfChan], [sampleRate], [sampleRate * 2 * numOfChan],
    [numOfChan * 2], 16) and the data length [numOfChan * frames * 2],
    each taken modulo [2^16] or [2^32] as [setUint16] and [setUint32]
    do. *)
Theorem wave_header_round_trip : forall ab bytes,
  bufferToWave ab = Some bytes ->
  let C := Z.of_nat (numberOfChannels ab) in
  let L := Z.of_nat (frames ab * numberOfChannels ab * 2) in
  map (getUint8 bytes) (seq 0 4) = char_codes "RIFF" /\
  getUint32 bytes 4 = (36 + L) mod 4294967296 /\
  map (getUint8 bytes) (seq 8 4) = char_codes "WAVE" /\
  map (getUint8 bytes) (seq 12 4) = char_codes "fmt " /\
  getUint32 bytes 16 = 16 /\
  getUint16 bytes 20 = 1 /\
  getUint16 bytes 22 = C mod 65536 /\
  getUint32 bytes 24 = sampleRate ab mod 4294967296 /\
  getUint32 bytes 28 = (sampleRate ab * 2 * C) mod 4294967296 /\
  getUint16 bytes 32 = (C * 2) mod 65536 /\
  getUint16 bytes 34 = 16 /\
  map (getUint8 bytes) (seq 36 4) = char_codes "data" /\
  getUint32 bytes 40 = L mod 4294967296.
Proof.
  intros ab bytes H C L. unfold bufferToWave in H.
  set (hw := header_writes (numberOfChannels ab)
               (Z.of_nat (frames ab * numberOfChannels ab * 2)) (sampleRate ab)) in H.
  assert (Hh : forall x b, In (x, b) hw -> nth x bytes 0 = b).
  { intros x b Hx. apply (write_all_hit _ _ _ x b H); [apply in_or_app; left; exact Hx|].
    intros b' Hb'. apply in_app_or in Hb' as [Hb'|Hb'].
    - symmetry. apply (nodup_fst_functional hw x b b'); auto.
      unfold hw. rewrite header_writes_fst. apply seq_NoDup.
    - apply header_writes_index in Hx. simpl in Hx.
      apply in_data_writes in Hb' as [i' [j' [_ [_ Hb']]]].
      unfold set_int16 in Hb'. simpl in Hb'.
      destruct Hb' as [E|[E|[]]]; injection E as E _; lia. }
  unfold getUint16, getUint32.
  repeat split.
  - apply (write_string_read "RIFF" 0 bytes). intros x b Hx. apply Hh. unfold hw. in_piece Hx.
  - rewrite get_le_bytes with (v := (36 + L) mod 4294967296);
      [change (256 ^ Z.of_nat 4) with 4294967296; apply Z.mod_mod; lia|].
    intros x b Hx. apply Hh. unfold hw. in_piece Hx.
  - apply (write_string_read "WAVE" 8 bytes). intros x b Hx. apply Hh. unfold hw. in_piece Hx.
  - apply (write_string_read "fmt " 12 bytes). intros x b Hx. apply Hh. unfold hw. in_piece Hx.
  - rewrite get_le_bytes with (v := 16 mod 4294967296); [reflexivity|].
    intros x b Hx. apply Hh. unfold hw. in_piece Hx.
  - rewrite get_le_bytes with (v := 1 mod 65536); [reflexivity|].
    intros x b Hx. apply Hh. unfold hw. in_piece Hx.
  - rewrite get_le_bytes with (v := C mod 65536);
      [change (256 ^ Z.of_nat 2) with 65536; apply Z.mod_mod; lia|].
    intros x b Hx. apply Hh. unfold hw. in_piece Hx.
  - rewrite get_le_bytes with (v := sampleRate ab mod 4294967296);
      [change (256 ^ Z.of_nat 4) with 4294967296; apply Z.mod_mod; lia|].
    intros x b Hx. apply Hh. unfold hw. in_piece Hx.
  - rewrite get_le_bytes with (v := (sampleRate ab * 2 * C) mod 4294967296);
      [change (256 ^ Z.of_nat 4) with 4294967296; apply Z.mod_mod; lia|].
    intros x b Hx. apply Hh. unfold hw. in_piece Hx.
  - rewrite get_le_bytes with (v := (C * 2) mod 65536);
      [change (256 ^ Z.of_nat 2) with 65536; apply Z.mod_mod; lia|].
    intros x b Hx. apply Hh. unfold hw. in_piece Hx.
  - rewrite get_le_bytes with (v := 16 mod 65536); [reflexivity|].
    intros x b Hx. apply Hh. unfold hw. in_piece Hx.
  - apply (write_string_read "data" 36 bytes). intros x b Hx. apply Hh. unfold hw. in_piece Hx.
  - rewrite get_le_bytes with (v := L mod 4294967296);
      [change (256 ^ Z.of_nat 4) with 4294967296; apply Z.mod_mod; lia|].
    intros x b Hx. apply Hh. unfold hw. in_piece Hx.
Qed.

Lemma wave_header_round_trip_witness :
  let ab := mk_buffer 2 3 44100 [[Num (1 # 2); Num 2; Num 0]; [Num (-1); NaN; Num 0]] in
  bufferToWave ab = Some (match bufferToWave ab with Some b => b | None => [] end) /\
  getUint32 (match bufferToWave ab with Some b => b | None => [] end) 24 = 44100.
Proof.
  intro ab.
  assert (H : bufferToWave ab = Some (match bufferToWave ab with Some b => b | None => [] end))
    by (vm_compute; reflexivity).
  split; [exact H|].
  destruct (wave_header_round_trip ab (match bufferToWave ab with Some b => b | None => [] end) H) as (_ & _ & _ & _ & _ & _ & _ & H8 & _).
  rewrite H8. reflexivity.
Defined.

End WavReadFacts.
